(** * Threefolio: the footprint-trail deformation field of [Grass]

    A shallow embedding of [src/environment/grass.js].

    - The CPU side ([Grass.update]: footprint recorder and trail packer) runs
      on JavaScript numbers, which are IEEE-754 binary64 values: they are
      embedded as Rocq's primitive [float]s, NaN included.  [update] mutates
      [this] and may raise a [TypeError]; it is embedded as a function from
      the object's state to the state it leaves behind and a completion.
    - The GPU side (the node graph built by [Grass.setMaterial]) is embedded
      over the real numbers: the arithmetic of the shading language is
      idealised, its built-ins ([smoothstep], [step], [length]) follow their
      shading-language definitions.  The time falloff is also given with
      every operation rounded to binary32, the format of the uniforms.
    - [Grass.setGeometry], [SpawnerZone] and [CubeWall] are embedded on
      binary64 numbers like [update]. *)

From Stdlib Require Import Floats Reals Lra Psatz ZArith List Lia Bool.
From Stdlib Require Uint63.
From stdpp Require Import base list strings.

Set Warnings "-inexact-float".

(** ** JavaScript values *)

Module JS.

(** How a call ends: it returns, or a [TypeError] escapes it
    (reading a property of [undefined]). *)
Inductive completion : Type :=
  | Normal
  | TypeError.

(** A hole of an array reads back as [undefined]; in an array that is
    uploaded as float uniforms it becomes NaN. *)
Definition hole : float := nan.

(** [arr[i] = v]: replaces the element when [i] is inside the array, and
    otherwise extends the array up to index [i]. *)
Definition array_set (arr : list float) (i : nat) (v : float) : list float :=
  if decide (i < length arr) then <[i:=v]> arr
  else arr ++ replicate (i - length arr) hole ++ [v].

(** [arr.slice(-n)] for a non-negative integer [n]: the last [n] elements;
    [-0] is [0], so [slice(-0)] is the whole array. *)
Definition slice_last {A} (n : nat) (arr : list A) : list A :=
  match n with
  | O => arr
  | S _ => drop (length arr - n) arr
  end.

(** [a > b] on numbers (false as soon as one side is NaN). *)
Definition gt (a b : float) : bool := PrimFloat.ltb b a.

End JS.

(** ** Data model *)

(** A position sample [{ x, z }]. *)
Record Pos : Type := mkPos { p_x : float; p_z : float }.

(** A footprint [{ x, z, t }]. *)
Record FootprintEntry : Type := mkEntry { e_x : float; e_z : float; e_t : float }.

(** The fields of a [Grass] object that [update] reads or writes, and the
    uniform arrays declared next to them in [setMaterial]. *)
Record Grass : Type := mkGrassState {
  size : float;
  TRAIL_SIZE : nat;
  PLAYER_SLOTS : nat;
  CUBE_SLOTS : nat;
  HOLD_TIME : float;
  FADE_TIME : float;
  CUBE_COUNT : nat;
  timeNode : float;
  _playerTrail : list FootprintEntry;
  _cubeTrail : list FootprintEntry;
  _lastSampleTime : float;
  _lastCubeSampleTime : float;
  _cubeLastPos : option (list Pos);
  trailPosNode : list float;
  trailAgesNode : list float;
  cubePosNode : list float
}.

(** The values the packer writes into unused slots. *)
Definition SENTINEL_POS : float := 99999%float.
Definition SENTINEL_AGE : float := 9999%float.

(** [new Grass(scene)]: the state after [setMaterial]; [isMobile] is the
    touch-device test.  [_cubeLastPos] is not assigned by the constructor. *)
Definition newGrass (isMobile : bool) : Grass :=
  let trail_size := if isMobile then 40 else 80 in
  {| size := 60%float;
     TRAIL_SIZE := trail_size;
     PLAYER_SLOTS := if isMobile then 20 else 40;
     CUBE_SLOTS := if isMobile then 20 else 40;
     HOLD_TIME := 3.0%float;
     FADE_TIME := 1.0%float;
     CUBE_COUNT := 32;
     timeNode := 0.0%float;
     _playerTrail := [];
     _cubeTrail := [];
     _lastSampleTime := 0%float;
     _lastCubeSampleTime := 0%float;
     _cubeLastPos := None;
     trailPosNode := replicate (trail_size * 2) SENTINEL_POS;
     trailAgesNode := replicate trail_size SENTINEL_AGE;
     cubePosNode := replicate (32 * 2) SENTINEL_POS |}.

(** Field assignments on [this]. *)
Definition set_timeNode (v : float) (g : Grass) : Grass :=
  {| size := size g; TRAIL_SIZE := TRAIL_SIZE g; PLAYER_SLOTS := PLAYER_SLOTS g;
     CUBE_SLOTS := CUBE_SLOTS g; HOLD_TIME := HOLD_TIME g; FADE_TIME := FADE_TIME g;
     CUBE_COUNT := CUBE_COUNT g; timeNode := v;
     _playerTrail := _playerTrail g; _cubeTrail := _cubeTrail g;
     _lastSampleTime := _lastSampleTime g;
     _lastCubeSampleTime := _lastCubeSampleTime g;
     _cubeLastPos := _cubeLastPos g; trailPosNode := trailPosNode g;
     trailAgesNode := trailAgesNode g; cubePosNode := cubePosNode g |}.

Definition set_playerSample (last : float) (trail : list FootprintEntry)
    (g : Grass) : Grass :=
  {| size := size g; TRAIL_SIZE := TRAIL_SIZE g; PLAYER_SLOTS := PLAYER_SLOTS g;
     CUBE_SLOTS := CUBE_SLOTS g; HOLD_TIME := HOLD_TIME g; FADE_TIME := FADE_TIME g;
     CUBE_COUNT := CUBE_COUNT g; timeNode := timeNode g;
     _playerTrail := trail; _cubeTrail := _cubeTrail g;
     _lastSampleTime := last;
     _lastCubeSampleTime := _lastCubeSampleTime g;
     _cubeLastPos := _cubeLastPos g; trailPosNode := trailPosNode g;
     trailAgesNode := trailAgesNode g; cubePosNode := cubePosNode g |}.

Definition set_cubes (trail : list FootprintEntry) (last : option (list Pos))
    (g : Grass) : Grass :=
  {| size := size g; TRAIL_SIZE := TRAIL_SIZE g; PLAYER_SLOTS := PLAYER_SLOTS g;
     CUBE_SLOTS := CUBE_SLOTS g; HOLD_TIME := HOLD_TIME g; FADE_TIME := FADE_TIME g;
     CUBE_COUNT := CUBE_COUNT g; timeNode := timeNode g;
     _playerTrail := _playerTrail g; _cubeTrail := trail;
     _lastSampleTime := _lastSampleTime g;
     _lastCubeSampleTime := _lastCubeSampleTime g;
     _cubeLastPos := last; trailPosNode := trailPosNode g;
     trailAgesNode := trailAgesNode g; cubePosNode := cubePosNode g |}.

Definition set_trailNodes (pos ages : list float) (g : Grass) : Grass :=
  {| size := size g; TRAIL_SIZE := TRAIL_SIZE g; PLAYER_SLOTS := PLAYER_SLOTS g;
     CUBE_SLOTS := CUBE_SLOTS g; HOLD_TIME := HOLD_TIME g; FADE_TIME := FADE_TIME g;
     CUBE_COUNT := CUBE_COUNT g; timeNode := timeNode g;
     _playerTrail := _playerTrail g; _cubeTrail := _cubeTrail g;
     _lastSampleTime := _lastSampleTime g;
     _lastCubeSampleTime := _lastCubeSampleTime g;
     _cubeLastPos := _cubeLastPos g; trailPosNode := pos;
     trailAgesNode := ages; cubePosNode := cubePosNode g |}.

(** ** [Grass.update]: the recorder *)

(** The constants of [update]; [CUBE_SAMPLE_INTERVAL] is declared there
    too, and like [_lastCubeSampleTime] it is never read. *)
Definition SAMPLE_INTERVAL : float := 0.1%float.
Definition CUBE_SAMPLE_INTERVAL : float := 0.15%float.
Definition MOVE_THRESHOLD_SQ : float := 0.09%float.

(** [totalTime = this.HOLD_TIME + this.FADE_TIME]. *)
Definition totalTime (g : Grass) : float :=
  PrimFloat.add (HOLD_TIME g) (FADE_TIME g).

(** The test of both [filter] calls: [(time - e.t) < totalTime + 0.2]. *)
Definition fresh (g : Grass) (time : float) (e : FootprintEntry) : bool :=
  PrimFloat.ltb (PrimFloat.sub time (e_t e))
                (PrimFloat.add (totalTime g) 0.2%float).

(** [trail.filter(fresh)], then [slice(-slots)] when the trail is longer
    than [slots]. *)
Definition prune (g : Grass) (time : float) (slots : nat)
    (trail : list FootprintEntry) : list FootprintEntry :=
  let kept := List.filter (fresh g time) trail in
  if decide (slots < length kept) then JS.slice_last slots kept else kept.

(** Player footsteps: sampled only when grounded and more than
    [SAMPLE_INTERVAL] after the last sample. *)
Definition recordPlayer (g : Grass) (time : float) (playerPos : Pos)
    (onGround : bool) : Grass :=
  if onGround && JS.gt (PrimFloat.sub time (_lastSampleTime g)) SAMPLE_INTERVAL
  then
    let pushed := _playerTrail g ++ [mkEntry (p_x playerPos) (p_z playerPos) time] in
    set_playerSample time (prune g time (PLAYER_SLOTS g) pushed) g
  else g.

(** The movement test of the cube loop: [dx * dx + dz * dz > MOVE_THRESHOLD_SQ]. *)
Definition moved (cube last : Pos) : bool :=
  let dx := PrimFloat.sub (p_x cube) (p_x last) in
  let dz := PrimFloat.sub (p_z cube) (p_z last) in
  JS.gt (PrimFloat.add (PrimFloat.mul dx dx) (PrimFloat.mul dz dz)) MOVE_THRESHOLD_SQ.

(** The loop [for (let i = 0; i < cubePositions.length; i++)], entered at
    index [i] with the cubes from [i] on still to visit.  [last.x] raises
    when [_cubeLastPos[i]] is [undefined]; the pushes and assignments made
    before that stay. *)
Fixpoint cubeLoop (time : float) (cubes : list Pos) (i : nat)
    (trail : list FootprintEntry) (lastPos : list Pos)
    : list FootprintEntry * list Pos * JS.completion :=
  match cubes with
  | [] => (trail, lastPos, JS.Normal)
  | cube :: rest =>
      match lastPos !! i with
      | None => (trail, lastPos, JS.TypeError)
      | Some last =>
          if moved cube last
          then cubeLoop time rest (S i)
                 (trail ++ [mkEntry (p_x last) (p_z last) time])
                 (<[i := mkPos (p_x cube) (p_z cube)]> lastPos)
          else cubeLoop time rest (S i) trail lastPos
      end
  end.

(** Cube footsteps: the block under [if (cubePositions)]. *)
Definition recordCubes (g : Grass) (time : float)
    (cubePositions : option (list Pos)) : Grass * JS.completion :=
  match cubePositions with
  | None => (g, JS.Normal)
  | Some cubes =>
      let lastPos :=
        match _cubeLastPos g with
        | None => map (fun c => mkPos (p_x c) (p_z c)) cubes
        | Some l => l
        end in
      match cubeLoop time cubes 0 (_cubeTrail g) lastPos with
      | (trail, lastPos', JS.TypeError) =>
          (set_cubes trail (Some lastPos') g, JS.TypeError)
      | (trail, lastPos', JS.Normal) =>
          (set_cubes (prune g time (CUBE_SLOTS g) trail) (Some lastPos') g,
           JS.Normal)
      end
  end.

(** ** [Grass.update]: the packer *)

(** The two copy loops: [for (i = 0; i < trail.length && gpuSlot < TRAIL_SIZE;
    i++, gpuSlot++)], entered with the entries from [i] on still to copy. *)
Fixpoint packTrail (trail_size : nat) (time : float)
    (trail : list FootprintEntry) (gpuSlot : nat) (pos ages : list float)
    : nat * list float * list float :=
  match trail with
  | [] => (gpuSlot, pos, ages)
  | e :: rest =>
      if decide (gpuSlot < trail_size) then
        let pos1 := JS.array_set pos (gpuSlot * 2) (e_x e) in
        let pos2 := JS.array_set pos1 (gpuSlot * 2 + 1) (e_z e) in
        let ages1 := JS.array_set ages gpuSlot (PrimFloat.sub time (e_t e)) in
        packTrail trail_size time rest (S gpuSlot) pos2 ages1
      else (gpuSlot, pos, ages)
  end.

(** The last loop, [for (; gpuSlot < TRAIL_SIZE; gpuSlot++)], with the
    number of iterations left as the recursion argument. *)
Fixpoint fillSentinel (remaining : nat) (gpuSlot : nat) (pos ages : list float)
    : list float * list float :=
  match remaining with
  | O => (pos, ages)
  | S n =>
      let pos1 := JS.array_set pos (gpuSlot * 2) SENTINEL_POS in
      let pos2 := JS.array_set pos1 (gpuSlot * 2 + 1) SENTINEL_POS in
      let ages1 := JS.array_set ages gpuSlot SENTINEL_AGE in
      fillSentinel n (S gpuSlot) pos2 ages1
  end.

(** The GPU upload: player entries first, cubes get what is left, the
    rest is reset. *)
Definition upload (g : Grass) (time : float) : Grass :=
  let '(slot1, pos1, ages1) :=
    packTrail (TRAIL_SIZE g) time (_playerTrail g) 0 (trailPosNode g) (trailAgesNode g) in
  let '(slot2, pos2, ages2) :=
    packTrail (TRAIL_SIZE g) time (_cubeTrail g) slot1 pos1 ages1 in
  let '(pos3, ages3) := fillSentinel (TRAIL_SIZE g - slot2) slot2 pos2 ages2 in
  set_trailNodes pos3 ages3 g.

(** ** [Grass.update] *)

(** [update(time, playerPos, onGround, cubePositions)]; a missing
    [playerPos] ([undefined] or [null]) is [None], a missing
    [cubePositions] likewise; an empty array is truthy. *)
Definition update (g : Grass) (time : float) (playerPos : option Pos)
    (onGround : bool) (cubePositions : option (list Pos))
    : Grass * JS.completion :=
  let g0 := set_timeNode (PrimFloat.mul time 2.0%float) g in
  match playerPos with
  | None => (g0, JS.Normal)
  | Some p =>
      let g1 := recordPlayer g0 time p onGround in
      match recordCubes g1 time cubePositions with
      | (g2, JS.TypeError) => (g2, JS.TypeError)
      | (g2, JS.Normal) => (upload g2 time, JS.Normal)
      end
  end.

(** One call of [update] with its arguments. *)
Record Frame : Type := mkFrame {
  f_time : float;
  f_playerPos : option Pos;
  f_onGround : bool;
  f_cubePositions : option (list Pos)
}.

Definition step (g : Grass) (fr : Frame) : Grass * JS.completion :=
  update g (f_time fr) (f_playerPos fr) (f_onGround fr) (f_cubePositions fr).

(** A sequence of calls, each made on the state the previous one left,
    whether it returned or raised. *)
Definition runAll (g : Grass) (frames : list Frame) : Grass :=
  fold_left (fun g fr => fst (step g fr)) frames g.

(** A sequence of calls that all return: [None] as soon as one raises. *)
Fixpoint run (g : Grass) (frames : list Frame) : option Grass :=
  match frames with
  | [] => Some g
  | fr :: rest =>
      match step g fr with
      | (g', JS.Normal) => run g' rest
      | (_, JS.TypeError) => None
      end
  end.

(** The fields no path of [update] assigns. *)
Definition same_constants (g g' : Grass) : Prop :=
  size g' = size g ∧ TRAIL_SIZE g' = TRAIL_SIZE g ∧
  PLAYER_SLOTS g' = PLAYER_SLOTS g ∧ CUBE_SLOTS g' = CUBE_SLOTS g ∧
  HOLD_TIME g' = HOLD_TIME g ∧ FADE_TIME g' = FADE_TIME g ∧
  CUBE_COUNT g' = CUBE_COUNT g ∧
  _lastCubeSampleTime g' = _lastCubeSampleTime g ∧
  cubePosNode g' = cubePosNode g.

(** The bounds one returning call maintains. *)
Definition bounded (g : Grass) : Prop :=
  0 < PLAYER_SLOTS g ∧ 0 < CUBE_SLOTS g ∧
  length (_playerTrail g) ≤ PLAYER_SLOTS g ∧
  length (_cubeTrail g) ≤ CUBE_SLOTS g.

(** The position [{ x: 0, z: 0 }], used in the examples. *)
Definition origin : Pos := mkPos 0 0.

(** The footprints pushed by a pass of the loop, given what each index
    pushed: nothing ([None]) or one footprint. *)
Definition pushes (marks : list (option FootprintEntry)) : list FootprintEntry :=
  omap (fun m => m) marks.

(** Slot [i] as the evaluator reads it: elements [2i] and [2i + 1] of the
    position array and element [i] of the age array. *)
Definition slot (g : Grass) (i : nat) : option (float * float * float) :=
  match trailPosNode g !! (i * 2), trailPosNode g !! (i * 2 + 1), trailAgesNode g !! i with
  | Some x, Some z, Some age => Some (x, z, age)
  | _, _, _ => None
  end.

(** What the copy loops write for a footprint, and what the last loop
    writes. *)
Definition packed (time : float) (e : FootprintEntry) : float * float * float :=
  (e_x e, e_z e, PrimFloat.sub time (e_t e)).

Definition sentinel : float * float * float :=
  (SENTINEL_POS, SENTINEL_POS, SENTINEL_AGE).

(** What a pass leaves in the arrays: the slots it wrote, and the slots
    below its entry cursor. *)
Definition holds (pos ages : list float) (i : nat) (v : float * float * float) : Prop :=
  pos !! (i * 2) = Some v.1.1 ∧ pos !! (i * 2 + 1) = Some v.1.2 ∧ ages !! i = Some v.2.

(** ** The evaluator: the position node of [setMaterial]

    The node graph runs on the GPU, per vertex.  Its arithmetic is taken
    over the real numbers; [smoothstep], [step] and [length] are the
    built-ins of the shading language. *)

(** The real number a finite binary64 value stands for. *)
Definition realOf (f : float) : option R :=
  match Prim2SF f with
  | S754_zero _ => Some 0%R
  | S754_finite s m e =>
      Some ((if s then -1 else 1) * IZR (Z.pos m) *
            (if (0 <=? e)%Z then IZR (2 ^ e) else / IZR (2 ^ (- e))))%R
  | S754_infinity _ => None
  | S754_nan => None
  end.

(** A float array as the real uniform array the shader reads. *)
Definition denotes (arr : list float) (values : list R) : Prop :=
  Forall2 (fun f r => realOf f = Some r) arr values.

Module Shader.

Open Scope R_scope.

Definition vec2 : Type := R * R.

Definition sub (a b : vec2) : vec2 := (a.1 - b.1, a.2 - b.2).
Definition mul (a : vec2) (k : R) : vec2 := (a.1 * k, a.2 * k).
Definition div (a : vec2) (k : R) : vec2 := (a.1 / k, a.2 / k).

(** [v.length()]. *)
Definition length (v : vec2) : R := sqrt (v.1 * v.1 + v.2 * v.2).

Definition clamp (x lo hi : R) : R := Rmin (Rmax x lo) hi.

(** [smoothstep(low, high, x)]: Hermite interpolation of
    [clamp((x - low) / (high - low), 0, 1)]. *)
Definition smoothstep (low high x : R) : R :=
  let t := clamp ((x - low) / (high - low)) 0 1 in
  t * t * (3 - 2 * t).

(** [step(edge, x)]: [0] when [x < edge], else [1]. *)
Definition step (edge x : R) : R := if Rlt_dec x edge then 0 else 1.

(** [arr.element(i)] of a uniform array; the loops below only read inside
    the declared size of their arrays. *)
Definition element (arr : list R) (i : nat) : R := nth i arr 0.

(** The uniforms [setMaterial] creates. *)
Definition playerRadius : R := 1.
Definition playerStrength : R := 1.2.
Definition cubeRadius : R := 0.8.
Definition cubeStrength : R := 1.0.

(** [vertexLoopIndex = vertexIndex.toFloat().mod(3)] and
    [tipness = step(vertexLoopIndex, 0.5)]. *)
Definition vertexLoopIndex (vertexIndex : nat) : R := INR (vertexIndex mod 3).
Definition tipness (vertexIndex : nat) : R := step (vertexLoopIndex vertexIndex) 0.5.

(** *** Trail displacement *)

(** [timeFalloff = smoothstep(float(4.0), float(3.0), age)]. *)
Definition timeFalloff (age : R) : R := smoothstep 4 3 age.

Definition dist (bladePosition trailPoint : vec2) : R :=
  length (sub bladePosition trailPoint) + 0.001.

Definition spatialFalloff (bladePosition trailPoint : vec2) : R :=
  smoothstep playerRadius 0 (dist bladePosition trailPoint).

Definition weight (bladePosition trailPoint : vec2) (age : R) : R :=
  spatialFalloff bladePosition trailPoint * timeFalloff age.

Definition contribution (bladePosition trailPoint : vec2) (age : R) : vec2 :=
  let toDelta := sub bladePosition trailPoint in
  let pushDir := div toDelta (dist bladePosition trailPoint) in
  mul pushDir (weight bladePosition trailPoint age).

(** [If(contribution.length().greaterThan(totalPush.length()),
       () => totalPush.assign(contribution))]. *)
Definition keepMax (totalPush contrib : vec2) : vec2 :=
  if Rlt_dec (length totalPush) (length contrib) then contrib else totalPush.

(** [Loop({ start: 0, end: TRAIL_SIZE }, ...)] from [totalPush = vec2(0, 0)]. *)
Definition trailLoop (trail_size : nat) (trailPos trailAges : list R)
    (bladePosition : vec2) : vec2 :=
  fold_left
    (fun totalPush i =>
       let trailPoint := (element trailPos (i * 2), element trailPos (i * 2 + 1)) in
       keepMax totalPush (contribution bladePosition trailPoint (element trailAges i)))
    (seq 0 trail_size) (0, 0).

(** [clampedPush = totalPush.mul(playerStrength).mul(tipness)]. *)
Definition clampedPush (trail_size : nat) (trailPos trailAges : list R)
    (bladePosition : vec2) (vertexIndex : nat) : vec2 :=
  mul (mul (trailLoop trail_size trailPos trailAges bladePosition) playerStrength)
      (tipness vertexIndex).

(** *** Cube displacement *)

Definition cubeDist (bladePosition cubePoint : vec2) : R :=
  length (sub bladePosition cubePoint) + 0.001.

Definition cubeContrib (bladePosition cubePoint : vec2) : vec2 :=
  let cubeDelta := sub bladePosition cubePoint in
  let cubeSpatial := smoothstep cubeRadius 0 (cubeDist bladePosition cubePoint) in
  let cubeDir := div cubeDelta (cubeDist bladePosition cubePoint) in
  mul cubeDir cubeSpatial.

(** [Loop({ start: 0, end: CUBE_COUNT }, ...)] from [cubePush = vec2(0, 0)]. *)
Definition cubeLoop (cube_count : nat) (cubePos : list R) (bladePosition : vec2) : vec2 :=
  fold_left
    (fun cubePush ci =>
       let cubePoint := (element cubePos (ci * 2), element cubePos (ci * 2 + 1)) in
       keepMax cubePush (cubeContrib bladePosition cubePoint))
    (seq 0 cube_count) (0, 0).

(** [cubePush.mul(cubeStrength).mul(tipness)]. *)
Definition cubeDisplacement (cube_count : nat) (cubePos : list R)
    (bladePosition : vec2) (vertexIndex : nat) : vec2 :=
  mul (mul (cubeLoop cube_count cubePos bladePosition) cubeStrength)
      (tipness vertexIndex).

End Shader.

(** ** The evaluator: blade shape and patch mask

    The vertical part of the position node.  The rotation towards the
    camera acts on the [xz] components only, and the two displacements are
    added as [vec3(x, 0, y)]; the [y] component of the result is the
    [y] of [position3 + shape], moved by the patch mask. *)

Module Blade.

Import Shader.
Open Scope R_scope.

(** The uniforms and the shape array [setMaterial] creates. *)
Definition bladeWidth : R := 0.12.
Definition bladeHeight : R := 1.2.
Definition bladeHeightRandomness : R := 0.6.
Definition bladeShape : list R := [0; 1; 1; 0; -1; 0].

(** [patchNoise = sin(x * 0.15).add(sin(y * 0.15)).mul(0.5).add(0.5)]. *)
Definition patchNoise (bladePosition : vec2) : R :=
  (sin (bladePosition.1 * 0.15) + sin (bladePosition.2 * 0.15)) * 0.5 + 0.5.

Definition hiddenThreshold : R := 0.4.

(** [hidden = step(patchNoise, hiddenThreshold)]. *)
Definition hidden (bladePosition : vec2) : R :=
  step (patchNoise bladePosition) hiddenThreshold.

(** [height = bladeHeight
       .mul(bladeHeightRandomness.mul(heightRandomness)
              .add(bladeHeightRandomness.oneMinus()))
       .mul(patchNoise)]. *)
Definition height (bladePosition : vec2) (heightRandomness : R) : R :=
  bladeHeight
  * (bladeHeightRandomness * heightRandomness + (1 - bladeHeightRandomness))
  * patchNoise bladePosition.

(** [shapeY = bladeShape.element(vertexLoopIndex.mod(3).mul(2).add(1)).mul(height)]. *)
Definition shapeY (bladePosition : vec2) (heightRandomness : R) (vertexIndex : nat) : R :=
  element bladeShape ((vertexIndex mod 3) mod 3 * 2 + 1)
  * height bladePosition heightRandomness.

(** The [y] component the position node returns:
    [position3.y + shape.y], then [addAssign(hidden.mul(-100))]. *)
Definition vertexY (bladePosition : vec2) (heightRandomness : R) (vertexIndex : nat) : R :=
  0 + shapeY bladePosition heightRandomness vertexIndex + hidden bladePosition * -100.

End Blade.

(** ** [SpawnerZone]

    The zone that spawns cubes when the player stands in it and presses
    Enter.  The meshes and rigid bodies it creates belong to the scene and
    to the physics world; a spawned cube is kept as the colour and the
    translation it is created with. *)

Module SpawnerZone.

Record Vector3 : Type := mkVector3 { v_x : float; v_y : float; v_z : float }.

Record Cube : Type := mkCube { color : N; spawnPos : Vector3 }.

Record Zone : Type := mkZone {
  radius : float;
  center : Vector3;
  isActive : bool;
  ringColor : N;
  ringEmissive : N;
  isPlayerInside : bool;
  pressedEnter : bool;
  cubes : list Cube;
  _enterConsumed : bool
}.

(** [new SpawnerZone(scene, RAPIER, world)]; the emissive colour of a new
    material is black. *)
Definition new : Zone :=
  {| radius := 2.0%float;
     center := mkVector3 (-4)%float 0.05%float 0%float;
     isActive := false;
     ringColor := 0x444444%N;
     ringEmissive := 0x000000%N;
     isPlayerInside := false;
     pressedEnter := false;
     cubes := [];
     _enterConsumed := false |}.

(** The two key listeners of the constructor. *)
Definition keydown (zone : Zone) (code : string) : Zone :=
  if bool_decide (code = "Enter")
  then {| radius := radius zone; center := center zone; isActive := isActive zone;
          ringColor := ringColor zone; ringEmissive := ringEmissive zone;
          isPlayerInside := isPlayerInside zone; pressedEnter := true;
          cubes := cubes zone; _enterConsumed := _enterConsumed zone |}
  else zone.

Definition keyup (zone : Zone) (code : string) : Zone :=
  if bool_decide (code = "Enter")
  then {| radius := radius zone; center := center zone; isActive := isActive zone;
          ringColor := ringColor zone; ringEmissive := ringEmissive zone;
          isPlayerInside := isPlayerInside zone; pressedEnter := false;
          cubes := cubes zone; _enterConsumed := _enterConsumed zone |}
  else zone.

(** The three cubes [_spawnCubes] pushes: two at the bottom, one on top. *)
Definition spawned (zone : Zone) : list Cube :=
  let c := center zone in
  [ mkCube 0xff4444%N
      (mkVector3 (PrimFloat.sub (v_x c) 0.6) (PrimFloat.add (v_y c) 1) (v_z c));
    mkCube 0x44ff44%N
      (mkVector3 (PrimFloat.add (v_x c) 0.6) (PrimFloat.add (v_y c) 1) (v_z c));
    mkCube 0x4444ff%N
      (mkVector3 (v_x c) (PrimFloat.add (v_y c) 2.1) (v_z c)) ].

(** [distance <= this.radius] with
    [distance = Math.sqrt(dx * dx + dz * dz)]. *)
Definition inside (zone : Zone) (playerPos : Vector3) : bool :=
  let dx := PrimFloat.sub (v_x playerPos) (v_x (center zone)) in
  let dz := PrimFloat.sub (v_z playerPos) (v_z (center zone)) in
  let distance := PrimFloat.sqrt (PrimFloat.add (PrimFloat.mul dx dx) (PrimFloat.mul dz dz)) in
  PrimFloat.leb distance (radius zone).

(** [update(playerPos)]; the last loop copies the translations of the
    rigid bodies to the meshes and assigns no field of the zone. *)
Definition update (zone : Zone) (playerPos : Vector3) : Zone :=
  if inside zone playerPos then
    if pressedEnter zone && negb (_enterConsumed zone) then
      {| radius := radius zone; center := center zone; isActive := isActive zone;
         ringColor := 0xffff44%N; ringEmissive := 0xffff44%N;
         isPlayerInside := true; pressedEnter := pressedEnter zone;
         cubes := cubes zone ++ spawned zone; _enterConsumed := true |}
    else if negb (pressedEnter zone) then
      {| radius := radius zone; center := center zone; isActive := isActive zone;
         ringColor := 0xffff44%N; ringEmissive := 0xffff44%N;
         isPlayerInside := true; pressedEnter := pressedEnter zone;
         cubes := cubes zone; _enterConsumed := false |}
    else
      {| radius := radius zone; center := center zone; isActive := isActive zone;
         ringColor := 0xffff44%N; ringEmissive := 0xffff44%N;
         isPlayerInside := true; pressedEnter := pressedEnter zone;
         cubes := cubes zone; _enterConsumed := _enterConsumed zone |}
  else
    {| radius := radius zone; center := center zone; isActive := isActive zone;
       ringColor := 0x444444%N; ringEmissive := 0x000000%N;
       isPlayerInside := false; pressedEnter := pressedEnter zone;
       cubes := cubes zone; _enterConsumed := false |}.

(** What happens to a zone: key events and frames. *)
Inductive Event : Type :=
  | KeyDown (code : string)
  | KeyUp (code : string)
  | Frame (playerPos : Vector3).

Definition handle (zone : Zone) (ev : Event) : Zone :=
  match ev with
  | KeyDown code => keydown zone code
  | KeyUp code => keyup zone code
  | Frame playerPos => update zone playerPos
  end.

Definition run (zone : Zone) (events : list Event) : Zone :=
  fold_left handle events zone.

End SpawnerZone.

(** ** [CubeWall]

    The wall of cubes whose positions the game loop passes to
    [Grass.update].  A cube is kept as the material it is given (0 for the
    gray one, 1 for the brick red one) and the position it is created at. *)

Module CubeWall.

Record Cube : Type := mkCube { material : nat; p_X : float; p_Y : float; p_Z : float }.

(** A loop counter as a number. *)
Definition num (n : nat) : float := PrimFloat.of_uint63 (Uint63.of_Z (Z.of_nat n)).

(** The cube built at row [r] and column [c]. *)
Definition cubeAt (startX startY startZ : float) (cols : nat) (cubeSize : float)
    (r c : nat) : Cube :=
  {| material := if decide ((r + c) mod 2 = 0) then 0 else 1;
     p_X := startX;
     p_Y := PrimFloat.add (PrimFloat.add startY (PrimFloat.div cubeSize 2))
                          (PrimFloat.mul (num r) cubeSize);
     p_Z := PrimFloat.sub (PrimFloat.add startZ (PrimFloat.mul (num c) cubeSize))
                          (PrimFloat.div (PrimFloat.mul (num cols) cubeSize) 2) |}.

(** [this.cubes] after the constructor: for each row, for each column,
    one push. *)
Definition new (startX startY startZ : float) (cols rows : nat) (cubeSize : float)
    : list Cube :=
  flat_map (fun r => map (cubeAt startX startY startZ cols cubeSize r) (seq 0 cols))
           (seq 0 rows).

End CubeWall.

(** ** [Grass.setGeometry]

    The blade anchors.  [Math.random] is taken as the sequence of its
    results, and the rounding of a number stored in a [Float32Array] as a
    function; both are parameters of the embedding. *)

Module Geometry.

(** A loop counter as a number. *)
Definition num (n : nat) : float := PrimFloat.of_uint63 (Uint63.of_Z (Z.of_nat n)).

(** [this.subdivisions] and [this.size]. *)
Definition subdivisions (isMobile : bool) : nat := if isMobile then 100 else 200.
Definition size : float := 60%float.

Section SetGeometry.

Variable random : nat → float.
Variable fround : float → float.

(** [arr[i] = v] on a [Float32Array]: the value is rounded; a write
    outside the array is ignored. *)
Definition typed_set (arr : list float) (i : nat) (v : float) : list float :=
  <[i := fround v]> arr.

(** The two arrays and the number of calls of [Math.random] made so far. *)
Record Buffers : Type := mkBuffers {
  position : list float;
  heightRandomness : list float;
  calls : nat
}.

(** [fragmentX] (and [fragmentZ]) of a row or column index. *)
Definition fragment (subdiv : nat) (fragmentSize : float) (iXZ : nat) : float :=
  PrimFloat.add
    (PrimFloat.mul (PrimFloat.sub (PrimFloat.div (num iXZ) (num subdiv)) 0.5) size)
    (PrimFloat.mul fragmentSize 0.5).

(** [fragment + (Math.random() - 0.5) * fragmentSize]. *)
Definition jitter (fragmentSize frag rnd : float) : float :=
  PrimFloat.add frag (PrimFloat.mul (PrimFloat.sub rnd 0.5) fragmentSize).

(** The body of the inner loop. *)
Definition blade (subdiv : nat) (fragmentSize : float) (iX : nat)
    (b : Buffers) (iZ : nat) : Buffers :=
  let fragmentX := fragment subdiv fragmentSize iX in
  let fragmentZ := fragment subdiv fragmentSize iZ in
  let i := iX * subdiv + iZ in
  let i3 := i * 3 in
  let i6 := i * 6 in
  let positionX := jitter fragmentSize fragmentX (random (calls b)) in
  let positionZ := jitter fragmentSize fragmentZ (random (calls b + 1)) in
  let pos0 := typed_set (position b) i6 positionX in
  let pos1 := typed_set pos0 (i6 + 1) positionZ in
  let pos2 := typed_set pos1 (i6 + 2) positionX in
  let pos3 := typed_set pos2 (i6 + 3) positionZ in
  let pos4 := typed_set pos3 (i6 + 4) positionX in
  let pos5 := typed_set pos4 (i6 + 5) positionZ in
  let h0 := typed_set (heightRandomness b) i3 (random (calls b + 2)) in
  let h1 := typed_set h0 (i3 + 1) (random (calls b + 3)) in
  let h2 := typed_set h1 (i3 + 2) (random (calls b + 4)) in
  mkBuffers pos5 h2 (calls b + 5).

(** [setGeometry()] up to the creation of the buffer geometry: two zeroed
    arrays, then the two nested loops. *)
Definition setGeometry (subdiv : nat) : Buffers :=
  let count := subdiv * subdiv in
  let fragmentSize := PrimFloat.div size (num subdiv) in
  fold_left
    (fun b iX => fold_left (blade subdiv fragmentSize iX) (seq 0 subdiv) b)
    (seq 0 subdiv)
    (mkBuffers (replicate (count * 3 * 2) 0%float) (replicate (count * 3) 0%float) 0).

(** What blade [i] leaves in the arrays: its anchor, three times, and its
    three height factors. *)
Definition anchored (subdiv : nat) (fragmentSize : float) (b : Buffers) (iX iZ : nat)
    : Prop :=
  let i := iX * subdiv + iZ in
  let x := fround (jitter fragmentSize (fragment subdiv fragmentSize iX) (random (i * 5))) in
  let z := fround (jitter fragmentSize (fragment subdiv fragmentSize iZ)
                     (random (i * 5 + 1))) in
  position b !! (i * 6) = Some x ∧ position b !! (i * 6 + 1) = Some z ∧
  position b !! (i * 6 + 2) = Some x ∧ position b !! (i * 6 + 3) = Some z ∧
  position b !! (i * 6 + 4) = Some x ∧ position b !! (i * 6 + 5) = Some z ∧
  heightRandomness b !! (i * 3) = Some (fround (random (i * 5 + 2))) ∧
  heightRandomness b !! (i * 3 + 1) = Some (fround (random (i * 5 + 3))) ∧
  heightRandomness b !! (i * 3 + 2) = Some (fround (random (i * 5 + 4))).

(** The state of the loops when the blades before index [n] are done. *)
Definition filled (subdiv : nat) (fragmentSize : float) (n : nat) (b : Buffers) : Prop :=
  length (position b) = subdiv * subdiv * 3 * 2 ∧
  length (heightRandomness b) = subdiv * subdiv * 3 ∧
  calls b = n * 5 ∧
  ∀ iX iZ, iZ < subdiv → iX * subdiv + iZ < n → anchored subdiv fragmentSize b iX iZ.

End SetGeometry.

End Geometry.

(** ** The time falloff in binary32

    The uniforms are declared ['float'], so the GPU evaluates the node
    graph on binary32 numbers.  The formula of [timeFalloff] with every
    operation rounded to binary32 (precision 24, exponent bound 128), in
    the order the formula is written. *)

Module Binary32.

Definition prec32 : Z := 24.
Definition emax32 : Z := 128.

(** The binary32 number [m * 2 ^ e]. *)
Definition lit (m e : Z) : spec_float := binary_normalize prec32 emax32 m e false.

Definition zero : spec_float := lit 0 0.
Definition one : spec_float := lit 1 0.
Definition two : spec_float := lit 2 0.
Definition three : spec_float := lit 3 0.
Definition four : spec_float := lit 4 0.

Definition max (a b : spec_float) : spec_float := if SFltb a b then b else a.
Definition min (a b : spec_float) : spec_float := if SFltb b a then b else a.
Definition clamp (x lo hi : spec_float) : spec_float := min (max x lo) hi.

(** [smoothstep(low, high, x)]: [t * t * (3 - 2 * t)] with
    [t = clamp((x - low) / (high - low), 0, 1)]. *)
Definition smoothstep (low high x : spec_float) : spec_float :=
  let t := clamp (SFdiv prec32 emax32 (SFsub prec32 emax32 x low)
                                      (SFsub prec32 emax32 high low)) zero one in
  SFmul prec32 emax32 (SFmul prec32 emax32 t t)
        (SFsub prec32 emax32 three (SFmul prec32 emax32 two t)).

(** [timeFalloff = smoothstep(float(4.0), float(3.0), age)]. *)
Definition timeFalloff (age : spec_float) : spec_float := smoothstep four three age.

End Binary32.

(** Evaluates [realOf] on a constant. *)
Ltac realOf_constant :=
  unfold realOf;
  match goal with
  | |- context [Prim2SF ?f] =>
      let sf := eval vm_compute in (Prim2SF f) in change (Prim2SF f) with sf
  end;
  cbn;
  match goal with
  | |- context [(2 ^ ?e)%Z] =>
      let v := eval vm_compute in (2 ^ e)%Z in change (2 ^ e)%Z with v
  end;
  f_equal; lra.

(** ** The packed arrays as a function of the trails *)

(** Slot [q] of the upload: the [q]-th footprint of the player trail
    followed by the cube trail, or the sentinel when there is none. *)
Definition slotOf (time : float) (trail : list FootprintEntry) (q : nat)
    : float * float * float :=
  match trail !! q with
  | Some e => packed time e
  | None => sentinel
  end.

Definition packedPos (n : nat) (time : float) (playerTrail cubeTrail : list FootprintEntry)
    : list float :=
  flat_map (fun q => let s := slotOf time (playerTrail ++ cubeTrail) q in [s.1.1; s.1.2])
           (seq 0 n).

Definition packedAges (n : nat) (time : float) (playerTrail cubeTrail : list FootprintEntry)
    : list float :=
  map (fun q => (slotOf time (playerTrail ++ cubeTrail) q).2) (seq 0 n).

(** * Properties *)

(** ** Arrays *)

Section Arrays.

Lemma array_set_lookup_eq (arr : list float) (i : nat) (v : float) :
  JS.array_set arr i v !! i = Some v.
Proof.
  unfold JS.array_set. destruct (decide (i < length arr)) as [Hin|Hout].
  - by apply list_lookup_insert_eq.
  - rewrite lookup_app_r by lia.
    rewrite lookup_app_r by (rewrite length_replicate; lia).
    rewrite length_replicate.
    by replace (i - length arr - (i - length arr)) with 0 by lia.
Qed.

Lemma array_set_lookup_ne (arr : list float) (i j : nat) (v w : float) :
  j ≠ i → arr !! j = Some w → JS.array_set arr i v !! j = Some w.
Proof.
  intros Hne Hj. unfold JS.array_set.
  destruct (decide (i < length arr)).
  - by rewrite list_lookup_insert_ne.
  - by apply lookup_app_l_Some.
Qed.

Lemma slice_last_length {A} (n : nat) (arr : list A) :
  0 < n → n < length arr → length (JS.slice_last n arr) = n.
Proof.
  intros Hn Hlen. destruct n as [|n]; [lia|].
  simpl. rewrite length_drop. lia.
Qed.

Lemma slice_last_In {A} (n : nat) (arr : list A) (a : A) :
  In a (JS.slice_last n arr) → In a arr.
Proof.
  destruct n as [|n]; simpl; [done|].
  rewrite <- !list_elem_of_In. apply subseteq_drop.
Qed.

End Arrays.

(** ** The recorder keeps its trails bounded *)

Section Recorder.

Variables (g : Grass) (time : float).

Lemma prune_length (slots : nat) (trail : list FootprintEntry) :
  0 < slots → length (prune g time slots trail) ≤ slots.
Proof.
  intros Hpos. unfold prune.
  destruct (decide (slots < length (List.filter (fresh g time) trail))) as [Hlong|Hshort].
  - rewrite slice_last_length; lia.
  - lia.
Qed.

Lemma prune_fresh (slots : nat) (trail : list FootprintEntry) (e : FootprintEntry) :
  In e (prune g time slots trail) → fresh g time e = true.
Proof.
  unfold prune.
  destruct (decide (slots < length (List.filter (fresh g time) trail))); intros Hin.
  - apply slice_last_In in Hin. by apply filter_In in Hin as [_ ?].
  - by apply filter_In in Hin as [_ ?].
Qed.

End Recorder.

Lemma same_constants_refl (g : Grass) : same_constants g g.
Proof. by repeat split. Qed.

Lemma same_constants_trans (g1 g2 g3 : Grass) :
  same_constants g1 g2 → same_constants g2 g3 → same_constants g1 g3.
Proof.
  unfold same_constants. intros H12 H23.
  destruct_and!. repeat split; congruence.
Qed.

Lemma recordPlayer_constants g time p onGround :
  same_constants g (recordPlayer g time p onGround).
Proof.
  unfold recordPlayer. case (_ && _); [by repeat split | apply same_constants_refl].
Qed.

Lemma recordCubes_constants g time cubes :
  same_constants g (fst (recordCubes g time cubes)).
Proof.
  unfold recordCubes. destruct cubes as [cubes|]; [|apply same_constants_refl].
  destruct (cubeLoop _ _ _ _ _) as [[trail lastPos] []]; by repeat split.
Qed.

Lemma upload_constants g time : same_constants g (upload g time).
Proof.
  unfold upload.
  destruct (packTrail _ _ (_playerTrail g) _ _ _) as [[s1 pos1] ages1].
  destruct (packTrail _ _ (_cubeTrail g) _ _ _) as [[s2 pos2] ages2].
  destruct (fillSentinel _ _ _ _) as [pos3 ages3]. by repeat split.
Qed.

Lemma update_constants g time playerPos onGround cubes :
  same_constants g (fst (update g time playerPos onGround cubes)).
Proof.
  unfold update. destruct playerPos as [p|]; [|by repeat split].
  pose proof (recordPlayer_constants (set_timeNode (PrimFloat.mul time 2) g) time p onGround) as H1.
  pose proof (recordCubes_constants
    (recordPlayer (set_timeNode (PrimFloat.mul time 2) g) time p onGround) time cubes) as H2.
  destruct (recordCubes _ _ _) as [g2 []]; simpl in *.
  - pose proof (upload_constants g2 time) as H3.
    eapply same_constants_trans; [|exact H3].
    eapply same_constants_trans; [|exact H2].
    eapply same_constants_trans; [|exact H1]. by repeat split.
  - eapply same_constants_trans; [|exact H2].
    eapply same_constants_trans; [|exact H1]. by repeat split.
Qed.

Lemma upload_trails g time :
  _playerTrail (upload g time) = _playerTrail g ∧
  _cubeTrail (upload g time) = _cubeTrail g ∧
  _cubeLastPos (upload g time) = _cubeLastPos g ∧
  _lastSampleTime (upload g time) = _lastSampleTime g ∧
  timeNode (upload g time) = timeNode g.
Proof.
  unfold upload.
  destruct (packTrail _ _ (_playerTrail g) _ _ _) as [[s1 pos1] ages1].
  destruct (packTrail _ _ (_cubeTrail g) _ _ _) as [[s2 pos2] ages2].
  destruct (fillSentinel _ _ _ _) as [pos3 ages3]. by repeat split.
Qed.

Lemma recordPlayer_trail_length g time p onGround :
  0 < PLAYER_SLOTS g → length (_playerTrail g) ≤ PLAYER_SLOTS g →
  length (_playerTrail (recordPlayer g time p onGround)) ≤ PLAYER_SLOTS g.
Proof.
  intros Hpos Hlen. unfold recordPlayer. case (_ && _); [|done].
  simpl. by apply prune_length.
Qed.

Lemma recordPlayer_cubes g time p onGround :
  _cubeTrail (recordPlayer g time p onGround) = _cubeTrail g ∧
  _cubeLastPos (recordPlayer g time p onGround) = _cubeLastPos g.
Proof. unfold recordPlayer. by case (_ && _). Qed.

Lemma recordCubes_player g time cubes :
  _playerTrail (fst (recordCubes g time cubes)) = _playerTrail g ∧
  _lastSampleTime (fst (recordCubes g time cubes)) = _lastSampleTime g.
Proof.
  unfold recordCubes. destruct cubes as [cubes|]; [|done].
  by destruct (cubeLoop _ _ _ _ _) as [[trail lastPos] []].
Qed.

Lemma recordCubes_trail_length g time cubes g' :
  recordCubes g time cubes = (g', JS.Normal) →
  0 < CUBE_SLOTS g → length (_cubeTrail g) ≤ CUBE_SLOTS g →
  length (_cubeTrail g') ≤ CUBE_SLOTS g.
Proof.
  unfold recordCubes. destruct cubes as [cubes|].
  - destruct (cubeLoop _ _ _ _ _) as [[trail lastPos] []]; [|done].
    intros [= <-] Hpos _. simpl. by apply prune_length.
  - by intros [= <-].
Qed.

Lemma update_bounded g time playerPos onGround cubes g' :
  update g time playerPos onGround cubes = (g', JS.Normal) →
  bounded g → bounded g'.
Proof.
  intros Hup (Hp & Hc & Hpl & Hcl).
  pose proof (update_constants g time playerPos onGround cubes) as Hconst.
  rewrite Hup in Hconst. destruct Hconst as (_ & _ & HP & HC & _). simpl in HP, HC.
  unfold bounded. rewrite HP, HC. split; [done|]. split; [done|].
  unfold update in Hup. destruct playerPos as [p|]; [|by injection Hup as <-].
  set (g0 := set_timeNode _ g) in Hup.
  destruct (recordCubes _ _ _) as [g2 []] eqn:Hcubes; [|done].
  injection Hup as <-.
  destruct (upload_trails g2 time) as (-> & -> & _).
  pose proof (recordCubes_player (recordPlayer g0 time p onGround) time cubes) as [Hpt _].
  rewrite Hcubes in Hpt. simpl in Hpt. rewrite Hpt. split.
  - by apply (recordPlayer_trail_length g0).
  - pose proof (recordPlayer_constants g0 time p onGround) as (_ & _ & _ & Hk & _).
    change (CUBE_SLOTS g0) with (CUBE_SLOTS g) in Hk. rewrite <- Hk.
    apply (recordCubes_trail_length _ _ _ _ Hcubes); rewrite Hk; [done|].
    by destruct (recordPlayer_cubes g0 time p onGround) as [-> _].
Qed.

Lemma newGrass_bounded isMobile : bounded (newGrass isMobile).
Proof. destruct isMobile; repeat split; simpl; lia. Qed.

Lemma run_bounded frames : ∀ g g', run g frames = Some g' → bounded g → bounded g'.
Proof.
  induction frames as [|fr frames IH]; intros g g' Hrun Hb; simpl in Hrun.
  - by injection Hrun as <-.
  - destruct (step g fr) as [g1 []] eqn:Hstep; [|done].
    eapply IH; [exact Hrun|]. by eapply update_bounded.
Qed.

Lemma run_constants frames : ∀ g g', run g frames = Some g' → same_constants g g'.
Proof.
  induction frames as [|fr frames IH]; intros g g' Hrun; simpl in Hrun.
  - injection Hrun as <-. apply same_constants_refl.
  - destruct (step g fr) as [g1 []] eqn:Hstep; [|done].
    eapply same_constants_trans; [|by apply IH].
    pose proof (update_constants g (f_time fr) (f_playerPos fr) (f_onGround fr)
                  (f_cubePositions fr)) as H.
    unfold step in Hstep. by rewrite Hstep in H.
Qed.

(** ** Capacity of the trails (C1) *)

(** C1, as amended.  After any finite sequence of [update] calls that
    return, made on a new [Grass], the player trail holds at most
    [PLAYER_SLOTS] entries and the cube trail at most [CUBE_SLOTS].  The age
    of the retained entries is bounded only by the test of the filter,
    [now - t < HOLD_TIME + FADE_TIME + 0.2], and only for a trail the call
    has filtered: the player trail when the call takes a player sample, the
    cube trail when the call is given a cube list. *)
Theorem C1_capacity_invariant (isMobile : bool) (frames : list Frame) (g : Grass) :
  run (newGrass isMobile) frames = Some g →
  PLAYER_SLOTS g = (if isMobile then 20 else 40) ∧
  CUBE_SLOTS g = (if isMobile then 20 else 40) ∧
  length (_playerTrail g) ≤ PLAYER_SLOTS g ∧
  length (_cubeTrail g) ≤ CUBE_SLOTS g ∧
  ∀ (time : float) (p : Pos) (onGround : bool) (cubes : option (list Pos)) (g' : Grass),
    update g time (Some p) onGround cubes = (g', JS.Normal) →
    (onGround = true →
     JS.gt (PrimFloat.sub time (_lastSampleTime g)) SAMPLE_INTERVAL = true →
     ∀ e, In e (_playerTrail g') → fresh g' time e = true) ∧
    (is_Some cubes → ∀ e, In e (_cubeTrail g') → fresh g' time e = true).
Proof.
  intros Hrun.
  pose proof (run_bounded _ _ _ Hrun (newGrass_bounded isMobile)) as (_ & _ & Hpl & Hcl).
  pose proof (run_constants _ _ _ Hrun) as (_ & _ & HP & HC & _).
  split; [by rewrite HP|]. split; [by rewrite HC|]. split; [done|]. split; [done|].
  intros time p onGround cubes g' Hup.
  assert (Hfresh : ∀ g1 e, same_constants g g1 → fresh g1 time e = fresh g time e).
  { intros g1 e (_ & _ & _ & _ & Hh & Hf & _). unfold fresh, totalTime. by rewrite Hh, Hf. }
  pose proof (update_constants g time (Some p) onGround cubes) as Hconst.
  rewrite Hup in Hconst. simpl in Hconst.
  unfold update in Hup. set (g0 := set_timeNode _ g) in Hup.
  destruct (recordCubes _ _ _) as [g2 []] eqn:Hcubes; [|done].
  injection Hup as <-.
  destruct (upload_trails g2 time) as (Ept & Ect & _).
  split.
  - intros -> Hgt e Hin. rewrite (Hfresh _ _ Hconst).
    rewrite Ept in Hin.
    pose proof (recordCubes_player (recordPlayer g0 time p true) time cubes) as [Hpt _].
    rewrite Hcubes in Hpt. simpl in Hpt. rewrite Hpt in Hin.
    unfold recordPlayer in Hin. change (_lastSampleTime g0) with (_lastSampleTime g) in Hin.
    rewrite Hgt in Hin. simpl in Hin. by apply prune_fresh in Hin.
  - intros [cs ->] e Hin. rewrite (Hfresh _ _ Hconst).
    rewrite Ect in Hin. unfold recordCubes in Hcubes.
    destruct (cubeLoop _ _ _ _ _) as [[trail lastPos] []]; [|done].
    injection Hcubes as <-. simpl in Hin. apply prune_fresh in Hin.
    rewrite <- Hin. symmetry.
    transitivity (fresh g0 time e); [|by apply Hfresh].
    apply Hfresh.
    eapply same_constants_trans; [|apply recordPlayer_constants]. by repeat split.
Qed.

Lemma C1_capacity_invariant_witness :
  run (newGrass false) [mkFrame 1 (Some origin) true None] =
    Some (runAll (newGrass false) [mkFrame 1 (Some origin) true None]) ∧
  length (_playerTrail (runAll (newGrass false) [mkFrame 1 (Some origin) true None])) ≤
    PLAYER_SLOTS (runAll (newGrass false) [mkFrame 1 (Some origin) true None]).
Proof.
  split; [vm_compute; reflexivity|].
  apply (C1_capacity_invariant false [mkFrame 1 (Some origin) true None]).
  vm_compute; reflexivity.
Defined.

(** C1 as stated fails: a footprint taken at [t = 1] is still in the
    player trail after the sample taken at [t = 5.125], at age [4.125],
    which is not below [HOLD_TIME + FADE_TIME = 4]. *)
Lemma C1_age_bound_counterexample :
  ∃ g, run (newGrass false)
         [mkFrame 1 (Some origin) true None; mkFrame 5.125 (Some origin) true None]
       = Some g ∧
       In (mkEntry 0 0 1) (_playerTrail g) ∧
       PrimFloat.ltb (PrimFloat.sub 5.125 (e_t (mkEntry 0 0 1))) (totalTime g) = false.
Proof.
  exists (runAll (newGrass false)
            [mkFrame 1 (Some origin) true None; mkFrame 5.125 (Some origin) true None]).
  split; [vm_compute; reflexivity|]. split; [left; reflexivity|].
  vm_compute; reflexivity.
Qed.

(** ** A missing or malformed player sample (C8, C10) *)

(** C8, as amended.  In a frame whose player position is missing
    ([undefined] or [null]) the recorder takes no sample: the call returns
    and both trails, the time of the last sample and the remembered cube
    positions are what they were. *)
Theorem C8_missing_sample_skipped (g : Grass) (time : float) (onGround : bool)
    (cubes : option (list Pos)) :
  snd (update g time None onGround cubes) = JS.Normal ∧
  _playerTrail (fst (update g time None onGround cubes)) = _playerTrail g ∧
  _cubeTrail (fst (update g time None onGround cubes)) = _cubeTrail g ∧
  _lastSampleTime (fst (update g time None onGround cubes)) = _lastSampleTime g ∧
  _cubeLastPos (fst (update g time None onGround cubes)) = _cubeLastPos g.
Proof. by repeat split. Qed.

(** C8 as stated fails: a position whose coordinates are NaN is an object,
    hence truthy, and is recorded like any other. *)
Lemma C8_nan_sample_counterexample :
  _playerTrail (fst (update (newGrass false) 1 (Some (mkPos nan nan)) true None))
  = [mkEntry nan nan 1] ∧
  PrimFloat.is_nan (e_x (mkEntry nan nan 1)) = true.
Proof. split; vm_compute; reflexivity. Qed.

(** C10.  Without a player position [update] returns after the assignment
    to the time uniform: every other field, the two trails, the remembered
    cube positions, the sample times and the packed arrays included, keeps
    its value, whatever the cube list holds. *)
Theorem C10_no_player_position_is_noop (g : Grass) (time : float) (onGround : bool)
    (cubes : option (list Pos)) :
  update g time None onGround cubes
    = (set_timeNode (PrimFloat.mul time 2) g, JS.Normal) ∧
  let g' := fst (update g time None onGround cubes) in
  timeNode g' = PrimFloat.mul time 2 ∧
  _playerTrail g' = _playerTrail g ∧ _cubeTrail g' = _cubeTrail g ∧
  _cubeLastPos g' = _cubeLastPos g ∧
  _lastSampleTime g' = _lastSampleTime g ∧
  _lastCubeSampleTime g' = _lastCubeSampleTime g ∧
  trailPosNode g' = trailPosNode g ∧ trailAgesNode g' = trailAgesNode g ∧
  cubePosNode g' = cubePosNode g.
Proof. by repeat split. Qed.

(** ** A cube list that grows (C7) *)

Lemma cubeLoop_raises time cubes : ∀ i trail lastPos,
  i ≤ length lastPos → length lastPos < i + length cubes →
  (cubeLoop time cubes i trail lastPos).2 = JS.TypeError.
Proof.
  induction cubes as [|cube rest IH]; intros i trail lastPos Hi Hlen; simpl in *.
  - lia.
  - destruct (lastPos !! i) as [last|] eqn:E; [|done].
    apply lookup_lt_Some in E.
    destruct (moved cube last); apply IH; rewrite ?length_insert; lia.
Qed.

(** Once positions are remembered, a call whose cube list is longer than
    the remembered one raises a [TypeError]: the loop reads [last.x] with
    [last = undefined]. *)
Lemma longer_cube_list_raises (g : Grass) (time : float) (p : Pos)
    (onGround : bool) (cubes lastPos : list Pos) :
  _cubeLastPos g = Some lastPos →
  length lastPos < length cubes →
  snd (update g time (Some p) onGround (Some cubes)) = JS.TypeError.
Proof.
  intros Hlast Hlen. unfold update. set (g0 := set_timeNode _ g).
  destruct (recordPlayer_cubes g0 time p onGround) as [_ Hl].
  unfold recordCubes. rewrite Hl. change (_cubeLastPos g0) with (_cubeLastPos g).
  rewrite Hlast.
  pose proof (cubeLoop_raises time cubes 0
    (_cubeTrail (recordPlayer g0 time p onGround)) lastPos (Nat.le_0_l _) Hlen) as Hraise.
  destruct (cubeLoop _ _ _ _ _) as [[trail lastPos'] c]. simpl in Hraise.
  by rewrite Hraise.
Qed.

(** C7 as stated fails when the cube list grows: the first call remembers
    one position, the second call is given two cubes and raises. *)
Lemma C7_growing_list_counterexample :
  let g1 := fst (update (newGrass false) 0 (Some origin) true (Some [origin])) in
  snd (update (newGrass false) 0 (Some origin) true (Some [origin])) = JS.Normal ∧
  _cubeLastPos g1 = Some [origin] ∧
  snd (update g1 1 (Some origin) true (Some [origin; mkPos 1 1])) = JS.TypeError.
Proof.
  split; [vm_compute; reflexivity|]. split; [vm_compute; reflexivity|].
  apply (longer_cube_list_raises _ 1 origin true [origin; mkPos 1 1] [origin]).
  - vm_compute; reflexivity.
  - simpl; lia.
Qed.

(** ** The movement gate of the cube recorder (C9) *)

Lemma cubeLoop_gate time cubes : ∀ i trail lastPos,
  i + length cubes ≤ length lastPos →
  ∃ (marks : list (option FootprintEntry)) (lastPos' : list Pos),
    cubeLoop time cubes i trail lastPos = (trail ++ pushes marks, lastPos', JS.Normal) ∧
    length marks = length cubes ∧
    length lastPos' = length lastPos ∧
    (∀ j, j < i → lastPos' !! j = lastPos !! j) ∧
    (∀ j cube last, cubes !! j = Some cube → lastPos !! (i + j) = Some last →
       marks !! j = Some (if moved cube last
                          then Some (mkEntry (p_x last) (p_z last) time) else None) ∧
       lastPos' !! (i + j) = Some (if moved cube last
                                   then mkPos (p_x cube) (p_z cube) else last)).
Proof.
  induction cubes as [|cube rest IH]; intros i trail lastPos Hlen; simpl in *.
  - exists [], lastPos. simpl. rewrite app_nil_r. repeat split; try done.
  - destruct (lookup_lt_is_Some_2 lastPos i ltac:(lia)) as [last Hlast].
    rewrite Hlast. destruct (moved cube last) eqn:Hmoved.
    + destruct (IH (S i) (trail ++ [mkEntry (p_x last) (p_z last) time])
                  (<[i := mkPos (p_x cube) (p_z cube)]> lastPos))
        as (marks & lastPos' & Heq & Hm & Hl & Hkeep & Hat).
      { rewrite length_insert. lia. }
      exists (Some (mkEntry (p_x last) (p_z last) time) :: marks), lastPos'.
      rewrite length_insert in Hl.
      split; [by rewrite Heq, <- app_assoc|].
      split; [simpl; lia|]. split; [done|]. split.
      * intros j Hj. rewrite Hkeep by lia. apply list_lookup_insert_ne. lia.
      * intros [|j] c l Hc Hl'.
        -- simpl in Hc. injection Hc as <-. rewrite Nat.add_0_r in *.
           rewrite Hlast in Hl'. injection Hl' as <-. rewrite Hmoved.
           split; [done|]. rewrite Hkeep by lia.
           apply list_lookup_insert_eq. by eapply lookup_lt_Some.
        -- simpl in Hc. replace (i + S j) with (S i + j) in * by lia.
           apply (Hat j c l Hc). rewrite list_lookup_insert_ne by lia. done.
    + destruct (IH (S i) trail lastPos ltac:(lia))
        as (marks & lastPos' & Heq & Hm & Hl & Hkeep & Hat).
      exists (None :: marks), lastPos'.
      split; [done|]. split; [simpl; lia|]. split; [done|]. split.
      * intros j Hj. apply Hkeep. lia.
      * intros [|j] c l Hc Hl'.
        -- simpl in Hc. injection Hc as <-. rewrite Nat.add_0_r in *.
           rewrite Hlast in Hl'. injection Hl' as <-. rewrite Hmoved.
           split; [done|]. rewrite Hkeep by lia. done.
        -- simpl in Hc. replace (i + S j) with (S i + j) in * by lia.
           by apply (Hat j c l Hc).
Qed.

Lemma prune_same_constants g g1 time slots trail :
  same_constants g g1 → prune g1 time slots trail = prune g time slots trail.
Proof.
  intros (_ & _ & _ & _ & Hh & Hf & _). unfold prune.
  assert (E : List.filter (fresh g1 time) trail = List.filter (fresh g time) trail).
  { apply filter_ext. intros e. unfold fresh, totalTime. by rewrite Hh, Hf. }
  by rewrite E.
Qed.

(** C9, as amended.  In a frame with a player position, when the
    remembered positions exist and are as many as the cubes, the call
    returns, and for each index [i] the loop pushes a footprint exactly when
    [dx * dx + dz * dz > 0.09] ([marks !! i] is the push of index [i], if
    any); the footprint holds the remembered position and [t = time], and
    the remembered position of [i] becomes the current one.  The pushes are
    made in index order on the cube trail, which is pruned afterwards. *)
Theorem C9_cube_movement_gate (g : Grass) (time : float) (p : Pos) (onGround : bool)
    (cubes lastPos : list Pos) :
  _cubeLastPos g = Some lastPos →
  length lastPos = length cubes →
  ∃ (marks : list (option FootprintEntry)) (lastPos' : list Pos) (g' : Grass),
    update g time (Some p) onGround (Some cubes) = (g', JS.Normal) ∧
    _cubeTrail g' = prune g time (CUBE_SLOTS g) (_cubeTrail g ++ pushes marks) ∧
    _cubeLastPos g' = Some lastPos' ∧
    length marks = length cubes ∧
    length lastPos' = length cubes ∧
    ∀ i cube last, cubes !! i = Some cube → lastPos !! i = Some last →
      let dx := PrimFloat.sub (p_x cube) (p_x last) in
      let dz := PrimFloat.sub (p_z cube) (p_z last) in
      let exceeds :=
        PrimFloat.ltb 0.09%float
          (PrimFloat.add (PrimFloat.mul dx dx) (PrimFloat.mul dz dz)) in
      marks !! i = Some (if exceeds
                         then Some (mkEntry (p_x last) (p_z last) time) else None) ∧
      lastPos' !! i = Some (if exceeds
                            then mkPos (p_x cube) (p_z cube) else last).
Proof.
  intros Hlast Hlen. unfold update. set (g0 := set_timeNode _ g).
  set (g1 := recordPlayer g0 time p onGround).
  destruct (recordPlayer_cubes g0 time p onGround) as [Ht Hl]. fold g1 in Ht, Hl.
  assert (Hc : same_constants g g1).
  { eapply same_constants_trans; [|apply recordPlayer_constants]. by repeat split. }
  destruct (cubeLoop_gate time cubes 0 (_cubeTrail g1) lastPos ltac:(simpl; lia))
    as (marks & lastPos' & Heq & Hm & Hl' & _ & Hat).
  exists marks, lastPos',
    (upload (set_cubes (prune g1 time (CUBE_SLOTS g1) (_cubeTrail g1 ++ pushes marks))
                       (Some lastPos') g1) time).
  unfold recordCubes. rewrite Hl. change (_cubeLastPos g0) with (_cubeLastPos g).
  rewrite Hlast, Heq. split; [done|].
  destruct (upload_trails
    (set_cubes (prune g1 time (CUBE_SLOTS g1) (_cubeTrail g1 ++ pushes marks))
               (Some lastPos') g1) time) as (_ & -> & -> & _).
  simpl. rewrite (prune_same_constants g g1) by done. rewrite Ht.
  destruct Hc as (_ & _ & _ & -> & _).
  split; [done|]. split; [done|]. split; [done|]. split; [lia|].
  intros i cube last Hcube Hlast'. by apply (Hat i cube last).
Qed.

Lemma C9_cube_movement_gate_witness :
  let g1 := fst (update (newGrass false) 0 (Some origin) true
                   (Some [origin; mkPos 5 5])) in
  _cubeLastPos g1 = Some [origin; mkPos 5 5] ∧
  ∃ (marks : list (option FootprintEntry)) (lastPos' : list Pos),
    marks !! 0 = Some (Some (mkEntry 0 0 1)) ∧ marks !! 1 = Some None ∧
    lastPos' !! 0 = Some (mkPos 0.5 0) ∧ lastPos' !! 1 = Some (mkPos 5 5).
Proof.
  set (g1 := fst (update (newGrass false) 0 (Some origin) true (Some [origin; mkPos 5 5]))).
  assert (H1 : _cubeLastPos g1 = Some [origin; mkPos 5 5]) by (vm_compute; reflexivity).
  split; [exact H1|].
  destruct (C9_cube_movement_gate g1 1 origin true [mkPos 0.5 0; mkPos 5.25 5]
              [origin; mkPos 5 5] H1 eq_refl)
    as (marks & lastPos' & g' & _ & _ & _ & _ & _ & Hat).
  exists marks, lastPos'.
  destruct (Hat 0 (mkPos 0.5 0) origin eq_refl eq_refl) as [Hm0 Hl0].
  destruct (Hat 1 (mkPos 5.25 5) (mkPos 5 5) eq_refl eq_refl) as [Hm1 Hl1].
  repeat split; assumption.
Defined.

(** C9 as stated fails in a frame without a player position: the
    remembered position exists, the list has the same length and the cube
    has moved by 5 ([dx * dx + dz * dz = 25 > 0.09]), yet no footprint is
    pushed and the remembered position is not replaced. *)
Lemma C9_no_player_counterexample :
  let g1 := fst (update (newGrass false) 0 (Some origin) true (Some [origin])) in
  _cubeLastPos g1 = Some [origin] ∧
  PrimFloat.ltb 0.09%float
    (PrimFloat.add (PrimFloat.mul (PrimFloat.sub 5 0) (PrimFloat.sub 5 0))
                   (PrimFloat.mul (PrimFloat.sub 0 0) (PrimFloat.sub 0 0))) = true ∧
  _cubeTrail g1 = [] ∧
  _cubeTrail (fst (update g1 1 None true (Some [mkPos 5 0]))) = [] ∧
  _cubeLastPos (fst (update g1 1 None true (Some [mkPos 5 0]))) = Some [origin].
Proof. repeat split; vm_compute; reflexivity. Qed.

(** ** The packer gives the player trail priority (C2) *)

Section Packer.

Variables (n : nat) (time : float).

Lemma holds_write pos ages i x z a :
  holds (JS.array_set (JS.array_set pos (i * 2) x) (i * 2 + 1) z)
        (JS.array_set ages i a) i (x, z, a).
Proof.
  repeat split; simpl.
  - apply array_set_lookup_ne; [lia|]. apply array_set_lookup_eq.
  - apply array_set_lookup_eq.
  - apply array_set_lookup_eq.
Qed.

Lemma holds_kept pos ages i j x z a v :
  j ≠ i → holds pos ages j v →
  holds (JS.array_set (JS.array_set pos (i * 2) x) (i * 2 + 1) z)
        (JS.array_set ages i a) j v.
Proof.
  intros Hne (Hx & Hz & Ha). repeat split.
  - do 2 (apply array_set_lookup_ne; [lia|]). done.
  - do 2 (apply array_set_lookup_ne; [lia|]). done.
  - by apply array_set_lookup_ne.
Qed.

Lemma packTrail_spec trail : ∀ s pos ages s' pos' ages',
  packTrail n time trail s pos ages = (s', pos', ages') →
  s' = s + min (length trail) (n - s) ∧
  (∀ j e, trail !! j = Some e → s + j < n → holds pos' ages' (s + j) (packed time e)) ∧
  (∀ q v, q < s → holds pos ages q v → holds pos' ages' q v).
Proof.
  induction trail as [|e rest IH]; intros s pos ages s' pos' ages' Hpack; simpl in Hpack.
  - injection Hpack as <- <- <-. split; [simpl; lia|]. split; [|done].
    intros j e Hj. by rewrite lookup_nil in Hj.
  - destruct (decide (s < n)) as [Hs|Hs].
    + apply IH in Hpack as (-> & Hnew & Hold). split; [cbn [length]; lia|]. split.
      * intros [|j] e' He' Hlt.
        -- simpl in He'. injection He' as <-. rewrite Nat.add_0_r.
           apply Hold; [lia|]. apply holds_write.
        -- simpl in He'. replace (s + S j) with (S s + j) by lia.
           apply Hnew; [done|lia].
      * intros q v Hq Hv. apply Hold; [lia|]. apply holds_kept; [lia|done].
    + injection Hpack as <- <- <-. split; [cbn [length]; lia|]. split; [|done].
      intros j e' _ Hlt. lia.
Qed.

Lemma fillSentinel_spec remaining : ∀ s pos ages pos' ages',
  fillSentinel remaining s pos ages = (pos', ages') →
  (∀ q, s ≤ q → q < s + remaining → holds pos' ages' q sentinel) ∧
  (∀ q v, q < s → holds pos ages q v → holds pos' ages' q v).
Proof.
  induction remaining as [|r IH]; intros s pos ages pos' ages' Hfill; simpl in Hfill.
  - injection Hfill as <- <-. split; [|done]. intros q Hq Hlt. lia.
  - apply IH in Hfill as [Hnew Hold]. split.
    + intros q Hq Hlt. destruct (decide (q = s)) as [->|Hne].
      * apply Hold; [lia|]. apply holds_write.
      * apply Hnew; lia.
    + intros q v Hq Hv. apply Hold; [lia|]. apply holds_kept; [lia|done].
Qed.

End Packer.

Lemma holds_slot g i v :
  holds (trailPosNode g) (trailAgesNode g) i v → slot g i = Some v.
Proof.
  intros (Hx & Hz & Ha). unfold slot. rewrite Hx, Hz, Ha.
  by destruct v as [[x z] a].
Qed.

Lemma upload_spec (g : Grass) (time : float) :
  length (_playerTrail g) ≤ TRAIL_SIZE g →
  (∀ i e, _playerTrail g !! i = Some e → slot (upload g time) i = Some (packed time e)) ∧
  (∀ j e, _cubeTrail g !! j = Some e →
     length (_playerTrail g) + j < TRAIL_SIZE g →
     slot (upload g time) (length (_playerTrail g) + j) = Some (packed time e)) ∧
  (∀ s, length (_playerTrail g) + length (_cubeTrail g) ≤ s → s < TRAIL_SIZE g →
     slot (upload g time) s = Some sentinel).
Proof.
  intros Hk. unfold upload.
  destruct (packTrail _ _ (_playerTrail g) _ _ _) as [[s1 pos1] ages1] eqn:E1.
  destruct (packTrail _ _ (_cubeTrail g) _ _ _) as [[s2 pos2] ages2] eqn:E2.
  destruct (fillSentinel _ _ _ _) as [pos3 ages3] eqn:E3.
  apply packTrail_spec in E1 as (Hs1 & Hnew1 & _).
  apply packTrail_spec in E2 as (Hs2 & Hnew2 & Hold2).
  apply fillSentinel_spec in E3 as (Hnew3 & Hold3).
  assert (s1 = length (_playerTrail g)) as -> by lia. clear Hs1.
  split; [|split].
  - intros i e He. apply holds_slot. simpl.
    pose proof (lookup_lt_Some _ _ _ He) as Hi.
    apply Hold3; [lia|]. apply Hold2; [lia|]. apply (Hnew1 i e He). lia.
  - intros j e He Hlt. apply holds_slot. simpl.
    pose proof (lookup_lt_Some _ _ _ He) as Hj.
    apply Hold3; [lia|]. by apply Hnew2.
  - intros s Hs Hlt. apply holds_slot. simpl. apply Hnew3; lia.
Qed.

(** C2, as amended.  In a frame whose call reaches the packer (a player
    position is given and the call returns), if the player trail holds
    [k ≤ TRAIL_SIZE] entries after recording, then slots [0 .. k-1] hold the
    entries of the
    player trail in trail order with age [time - t], whatever the cube
    trail holds; the slots from [k] on hold the entries of the cube trail in
    trail order, as far as [TRAIL_SIZE] allows; and the slots left after
    both trails hold the sentinel values. *)
Theorem C2_priority_packing (g : Grass) (time : float) (p : Pos) (onGround : bool)
    (cubes : option (list Pos)) (g' : Grass) :
  update g time (Some p) onGround cubes = (g', JS.Normal) →
  length (_playerTrail g') ≤ TRAIL_SIZE g' →
  (∀ i e, _playerTrail g' !! i = Some e →
     slot g' i = Some (e_x e, e_z e, PrimFloat.sub time (e_t e))) ∧
  (∀ j e, _cubeTrail g' !! j = Some e →
     length (_playerTrail g') + j < TRAIL_SIZE g' →
     slot g' (length (_playerTrail g') + j)
       = Some (e_x e, e_z e, PrimFloat.sub time (e_t e))) ∧
  (∀ s, length (_playerTrail g') + length (_cubeTrail g') ≤ s → s < TRAIL_SIZE g' →
     slot g' s = Some (SENTINEL_POS, SENTINEL_POS, SENTINEL_AGE)).
Proof.
  unfold update. set (g0 := set_timeNode _ g).
  destruct (recordCubes _ _ _) as [g2 []]; [|done].
  intros [= <-].
  destruct (upload_trails g2 time) as (-> & -> & _).
  destruct (upload_constants g2 time) as (_ & -> & _).
  apply upload_spec.
Qed.

Lemma C2_priority_packing_witness :
  let g1 := fst (update (newGrass false) 1 (Some (mkPos 2 3)) true (Some [origin])) in
  update (newGrass false) 1 (Some (mkPos 2 3)) true (Some [origin]) = (g1, JS.Normal) ∧
  length (_playerTrail g1) ≤ TRAIL_SIZE g1 ∧
  slot g1 0 = Some (2, 3, 0)%float ∧
  slot g1 1 = Some (SENTINEL_POS, SENTINEL_POS, SENTINEL_AGE).
Proof.
  set (g1 := fst (update (newGrass false) 1 (Some (mkPos 2 3)) true (Some [origin]))).
  assert (Hup : update (newGrass false) 1 (Some (mkPos 2 3)) true (Some [origin])
                = (g1, JS.Normal)) by (vm_compute; reflexivity).
  assert (Hk : length (_playerTrail g1) ≤ TRAIL_SIZE g1) by (vm_compute; lia).
  destruct (C2_priority_packing _ _ _ _ _ _ Hup Hk) as (Hplayer & _ & Hrest).
  split; [exact Hup|]. split; [exact Hk|]. split.
  - apply (Hplayer 0 (mkEntry 2 3 1)). vm_compute; reflexivity.
  - apply (Hrest 1); vm_compute; lia.
Defined.

(** C2 as stated fails in a frame without a player position: the call
    returns before the packer, so the slots keep the ages of the frame
    before.  A footprint taken at [t = 1] is packed with age 0; after a call
    at [t = 2] without a position the player trail still holds it and slot 0
    still holds age 0, not [2 - 1 = 1]. *)
Lemma C2_stale_ages_counterexample :
  let g1 := fst (update (newGrass false) 1 (Some (mkPos 2 3)) true None) in
  let g2 := fst (update g1 2 None true None) in
  _playerTrail g2 = [mkEntry 2 3 1] ∧
  length (_playerTrail g2) ≤ TRAIL_SIZE g2 ∧
  slot g2 0 = Some (2, 3, 0)%float ∧
  PrimFloat.sub 2 (e_t (mkEntry 2 3 1)) = 1%float ∧
  slot g2 0 ≠ Some (e_x (mkEntry 2 3 1), e_z (mkEntry 2 3 1),
                    PrimFloat.sub 2 (e_t (mkEntry 2 3 1))).
Proof.
  intros g1 g2.
  split; [vm_compute; reflexivity|]. split; [vm_compute; lia|].
  split; [vm_compute; reflexivity|]. split; [vm_compute; reflexivity|].
  intros H.
  apply (f_equal (fun s => match s with
                           | Some (_, _, age) => PrimFloat.eqb age 0
                           | None => false
                           end)) in H.
  vm_compute in H. discriminate.
Qed.

(** ** The evaluator (C3, C4, C5, C6) *)

(** The constants of the CPU side as real numbers. *)
Lemma realOf_SENTINEL_POS : realOf SENTINEL_POS = Some 99999%R.
Proof. realOf_constant. Qed.

Lemma realOf_SENTINEL_AGE : realOf SENTINEL_AGE = Some 9999%R.
Proof. realOf_constant. Qed.



Lemma realOf_size isMobile : realOf (size (newGrass isMobile)) = Some 60%R.
Proof. realOf_constant. Qed.

Lemma denotes_replicate (n : nat) (f : float) (r : R) (values : list R) :
  realOf f = Some r → denotes (replicate n f) values → values = replicate n r.
Proof.
  intros Hf. revert values. induction n as [|n IH]; intros values Hd; simpl in *.
  - by inversion Hd.
  - inversion Hd as [|f' r' fs rs Hr Hrest]; subst.
    rewrite Hf in Hr. injection Hr as <-. f_equal. by apply IH.
Qed.

Section ShaderFacts.

Import Shader.
Local Open Scope R_scope.

Lemma clamp_unit (x : R) : 0 <= clamp x 0 1 <= 1.
Proof.
  unfold clamp, Rmin, Rmax.
  destruct (Rle_dec x 0); destruct (Rle_dec _ 1); lra.
Qed.

Lemma clamp_below (x : R) : x <= 0 → clamp x 0 1 = 0.
Proof.
  intros Hx. unfold clamp, Rmin, Rmax.
  destruct (Rle_dec x 0); destruct (Rle_dec _ 1); lra.
Qed.



Lemma hermite_unit (t : R) : 0 <= t <= 1 → 0 <= t * t * (3 - 2 * t) <= 1.
Proof.
  intros [H0 H1]. split.
  - apply Rmult_le_pos; [apply Rmult_le_pos|]; lra.
  - assert (Hfactor : 1 - t * t * (3 - 2 * t) = (1 - t) * (1 - t) * (1 + 2 * t)) by ring.
    assert (0 <= (1 - t) * (1 - t) * (1 + 2 * t)).
    { apply Rmult_le_pos; [apply Rmult_le_pos|]; lra. }
    lra.
Qed.


Lemma smoothstep_unit (low high x : R) : 0 <= smoothstep low high x <= 1.
Proof. unfold smoothstep. apply hermite_unit, clamp_unit. Qed.

Lemma timeFalloff_clamp (age : R) :
  timeFalloff age = clamp (4 - age) 0 1 * clamp (4 - age) 0 1 * (3 - 2 * clamp (4 - age) 0 1).
Proof.
  unfold timeFalloff, smoothstep.
  replace ((age - 4) / (3 - 4)) with (4 - age) by (field; lra). done.
Qed.

Lemma timeFalloff_expired (age : R) : 4 <= age → timeFalloff age = 0.
Proof.
  intros Hage. rewrite timeFalloff_clamp, clamp_below by lra. ring.
Qed.

Lemma length_nonneg (v : vec2) : 0 <= length v.
Proof. apply sqrt_pos. Qed.

Lemma length_zero : length (0, 0) = 0.
Proof. unfold length. simpl. rewrite Rmult_0_l, Rplus_0_l. apply sqrt_0. Qed.

Lemma length_mul (v : vec2) (k : R) : length (mul v k) = Rabs k * length v.
Proof.
  destruct v as [a b]. unfold length, mul. simpl.
  replace (a * k * (a * k) + b * k * (b * k)) with (Rsqr k * (a * a + b * b))
    by (unfold Rsqr; ring).
  rewrite sqrt_mult; [|apply Rle_0_sqr|nra].
  by rewrite sqrt_Rsqr_abs.
Qed.

Lemma length_div (v : vec2) (d : R) : 0 < d → length (div v d) = length v / d.
Proof.
  intros Hd. change (div v d) with (mul v (/ d)). rewrite length_mul.
  rewrite Rabs_right; [unfold Rdiv; ring|].
  apply Rle_ge. left. by apply Rinv_0_lt_compat.
Qed.

Lemma length_ge_abs_fst (v : vec2) (c : R) : 0 <= c → c <= Rabs v.1 → c <= length v.
Proof.
  intros Hc Hv. destruct v as [a b]. simpl in Hv. unfold length. simpl.
  rewrite <- (sqrt_square c) by done. apply sqrt_le_1_alt.
  assert (c * c <= a * a).
  { unfold Rabs in Hv. destruct (Rcase_abs a); nra. }
  nra.
Qed.

Lemma mul_zero (v : vec2) : mul v 0 = (0, 0).
Proof. unfold mul. f_equal; ring. Qed.

Lemma keepMax_zero : keepMax (0, 0) (0, 0) = (0, 0).
Proof. unfold keepMax. by destruct (Rlt_dec _ _). Qed.

Lemma keepMax_bound (totalPush contrib : vec2) (b : R) :
  length totalPush <= b → length contrib <= b → length (keepMax totalPush contrib) <= b.
Proof. intros Ht Hc. unfold keepMax. by destruct (Rlt_dec _ _). Qed.

Lemma contribution_length (bladePosition trailPoint : vec2) (age : R) :
  length (contribution bladePosition trailPoint age) <= 1.
Proof.
  unfold contribution. rewrite length_mul.
  pose proof (length_nonneg (sub bladePosition trailPoint)) as Hlen.
  assert (Hd : 0 < dist bladePosition trailPoint) by (unfold dist; lra).
  rewrite length_div by done.
  assert (Hw : 0 <= weight bladePosition trailPoint age <= 1).
  { unfold weight, spatialFalloff.
    pose proof (smoothstep_unit playerRadius 0 (dist bladePosition trailPoint)).
    pose proof (smoothstep_unit 4 3 age). unfold timeFalloff. nra. }
  rewrite Rabs_right by lra.
  assert (Hdir : 0 <= length (sub bladePosition trailPoint) / dist bladePosition trailPoint <= 1).
  { split.
    - apply Rmult_le_pos; [done|]. left. by apply Rinv_0_lt_compat.
    - apply Rmult_le_reg_r with (dist bladePosition trailPoint); [done|].
      unfold Rdiv. rewrite Rmult_assoc, Rinv_l by lra. unfold dist. lra. }
  nra.
Qed.

Lemma trailLoop_length (trail_size : nat) (trailPos trailAges : list R)
    (bladePosition : vec2) :
  length (trailLoop trail_size trailPos trailAges bladePosition) <= 1.
Proof.
  unfold trailLoop.
  assert (Hinit : length (0, 0) <= 1) by (rewrite length_zero; lra).
  revert Hinit. generalize (0, 0) as totalPush. generalize (seq 0 trail_size) as slots.
  induction slots as [|i slots IH]; intros totalPush Hinit; simpl; [done|].
  apply IH. apply keepMax_bound; [done|]. apply contribution_length.
Qed.

Lemma tipness_binary (vertexIndex : nat) :
  tipness vertexIndex = 0 ∨ tipness vertexIndex = 1.
Proof. unfold tipness, step. destruct (Rlt_dec _ _); auto. Qed.

End ShaderFacts.

Lemma runAll_constants frames : ∀ g, same_constants g (runAll g frames).
Proof.
  unfold runAll. induction frames as [|fr frames IH]; intros g; simpl.
  - apply same_constants_refl.
  - eapply same_constants_trans; [|apply IH]. apply update_constants.
Qed.

Section Evaluator.

Import Shader.
Local Open Scope R_scope.

Lemma weight_unit (bladePosition trailPoint : vec2) (age : R) :
  0 <= weight bladePosition trailPoint age <= 1.
Proof.
  unfold weight, spatialFalloff, timeFalloff.
  pose proof (smoothstep_unit playerRadius 0 (dist bladePosition trailPoint)).
  pose proof (smoothstep_unit 4 3 age). nra.
Qed.

Lemma pushDir_length (bladePosition trailPoint : vec2) :
  length (div (sub bladePosition trailPoint) (dist bladePosition trailPoint)) <= 1.
Proof.
  pose proof (length_nonneg (sub bladePosition trailPoint)) as Hlen.
  assert (Hd : 0 < dist bladePosition trailPoint) by (unfold dist; lra).
  rewrite length_div by done.
  apply Rmult_le_reg_r with (dist bladePosition trailPoint); [done|].
  unfold Rdiv. rewrite Rmult_assoc, Rinv_l by lra. unfold dist. lra.
Qed.

Lemma fold_keepMax_selects (contrib : nat → vec2) (slots : list nat) : ∀ totalPush,
  let result := fold_left (fun acc i => keepMax acc (contrib i)) slots totalPush in
  result = totalPush ∨ ∃ i, In i slots ∧ result = contrib i.
Proof.
  induction slots as [|i slots IH]; intros totalPush; simpl; [by left|].
  destruct (IH (keepMax totalPush (contrib i))) as [Hkeep | (j & Hj & Hsel)].
  - rewrite Hkeep. unfold keepMax. destruct (Rlt_dec _ _); [|by left].
    right. exists i. split; [by left|done].
  - right. exists j. split; [by right|done].
Qed.

(** C3.  The sentinel values the packer writes stand for the reals 99999
    and 9999, and a slot holding them has weight
    [spatialFalloff * timeFalloff = 0] at every blade position, so that its
    contribution is the zero vector. *)
Theorem C3_sentinel_neutrality :
  realOf SENTINEL_POS = Some 99999 ∧ realOf SENTINEL_AGE = Some 9999 ∧
  ∀ bladePosition : vec2,
    weight bladePosition (99999, 99999) 9999 = 0 ∧
    contribution bladePosition (99999, 99999) 9999 = (0, 0).
Proof.
  split; [apply realOf_SENTINEL_POS|]. split; [apply realOf_SENTINEL_AGE|].
  intros bladePosition.
  assert (Hw : weight bladePosition (99999, 99999) 9999 = 0).
  { unfold weight. rewrite timeFalloff_expired by lra. ring. }
  split; [done|]. unfold contribution. rewrite Hw. apply mul_zero.
Qed.

(** C4.  At every blade position, for every contents of the packed arrays
    and every loop bound, the trail displacement
    [totalPush * playerStrength * tipness] has length at most
    [playerStrength]: every weight is in [0,1], the push direction has
    length at most 1, [tipness] is 0 or 1, and [totalPush] is the zero vector
    or the contribution of one slot, not a sum. *)
Theorem C4_max_selection_bound (trail_size : nat) (trailPos trailAges : list R)
    (bladePosition : vec2) (vertexIndex : nat) :
  length (clampedPush trail_size trailPos trailAges bladePosition vertexIndex)
    <= playerStrength ∧
  (∀ trailPoint age, 0 <= weight bladePosition trailPoint age <= 1) ∧
  (∀ trailPoint,
     length (div (sub bladePosition trailPoint) (dist bladePosition trailPoint)) <= 1) ∧
  (tipness vertexIndex = 0 ∨ tipness vertexIndex = 1) ∧
  (trailLoop trail_size trailPos trailAges bladePosition = (0, 0) ∨
   ∃ i, (i < trail_size)%nat ∧
     trailLoop trail_size trailPos trailAges bladePosition
     = contribution bladePosition
         (element trailPos (i * 2), element trailPos (i * 2 + 1)) (element trailAges i)).
Proof.
  split; [|split; [|split; [|split]]].
  - unfold clampedPush. rewrite !length_mul.
    pose proof (trailLoop_length trail_size trailPos trailAges bladePosition) as Hloop.
    pose proof (length_nonneg (trailLoop trail_size trailPos trailAges bladePosition)).
    unfold playerStrength. rewrite (Rabs_right 1.2) by lra.
    destruct (tipness_binary vertexIndex) as [-> | ->].
    + rewrite Rabs_R0. lra.
    + rewrite Rabs_R1. lra.
  - intros trailPoint age. apply weight_unit.
  - apply pushDir_length.
  - apply tipness_binary.
  - unfold trailLoop.
    destruct (fold_keepMax_selects
      (fun i => contribution bladePosition
                  (element trailPos (i * 2), element trailPos (i * 2 + 1))
                  (element trailAges i))
      (seq 0 trail_size) (0, 0)) as [Hzero | (i & Hi & Hsel)].
    + by left.
    + right. exists i. split; [|done]. apply in_seq in Hi. lia.
Qed.




(** *** The cube channel *)

Lemma cubeContrib_far (bladePosition cubePoint : vec2) :
  cubeRadius <= cubeDist bladePosition cubePoint →
  cubeContrib bladePosition cubePoint = (0, 0).
Proof.
  intros Hfar. unfold cubeContrib.
  assert (Hs : smoothstep cubeRadius 0 (cubeDist bladePosition cubePoint) = 0).
  { unfold smoothstep. rewrite clamp_below; [ring|].
    unfold cubeRadius in *.
    assert (Hinv : / (0 - 0.8) < 0) by (apply Rinv_lt_0_compat; lra).
    unfold Rdiv. nra. }
  rewrite Hs. apply mul_zero.
Qed.

Lemma cubeLoop_zero (cube_count : nat) (cubePos : list R) (bladePosition : vec2) :
  (∀ ci, (ci < cube_count)%nat →
     cubeContrib bladePosition (element cubePos (ci * 2), element cubePos (ci * 2 + 1))
     = (0, 0)) →
  Shader.cubeLoop cube_count cubePos bladePosition = (0, 0).
Proof.
  intros Hzero. unfold Shader.cubeLoop.
  assert (Hin : ∀ ci, In ci (seq 0 cube_count) →
            cubeContrib bladePosition (element cubePos (ci * 2), element cubePos (ci * 2 + 1))
            = (0, 0)).
  { intros ci Hci. apply Hzero. apply in_seq in Hci. lia. }
  clear Hzero. induction (seq 0 cube_count) as [|ci slots IH]; simpl; [done|].
  rewrite Hin by (by left). rewrite keepMax_zero. apply IH.
  intros cj Hcj. apply Hin. by right.
Qed.

(** C6.  Whatever calls of [update] are made on a new [Grass], returning or
    not, [cubePosNode] keeps its initial contents, [CUBE_COUNT] pairs of
    99999.  With these contents the cube loop leaves [cubePush] at the zero
    vector at every blade position of the field (both coordinates within
    [size / 2 = 30] of the origin), and the cube displacement is zero. *)
Theorem C6_cube_channel_unused (isMobile : bool) (frames : list Frame)
    (cubePos : list R) (bladePosition : vec2) (vertexIndex : nat) :
  let g := runAll (newGrass isMobile) frames in
  cubePosNode g = cubePosNode (newGrass isMobile) ∧
  cubePosNode g = replicate (CUBE_COUNT g * 2) SENTINEL_POS ∧
  realOf (size g) = Some 60 ∧
  (denotes (cubePosNode g) cubePos →
   Rabs bladePosition.1 <= 30 → Rabs bladePosition.2 <= 30 →
   Shader.cubeLoop (CUBE_COUNT g) cubePos bladePosition = (0, 0) ∧
   cubeDisplacement (CUBE_COUNT g) cubePos bladePosition vertexIndex = (0, 0)).
Proof.
  intros g.
  destruct (runAll_constants frames (newGrass isMobile))
    as (Hsize & _ & _ & _ & _ & _ & Hcount & _ & Hnode).
  fold g in Hsize, Hcount, Hnode.
  split; [done|]. split; [by rewrite Hnode, Hcount|].
  split; [rewrite Hsize; apply realOf_size|].
  intros Hden Hx Hz. rewrite Hnode, Hcount in *.
  change (cubePosNode (newGrass isMobile)) with (replicate 64 SENTINEL_POS) in Hden.
  apply (denotes_replicate _ _ _ _ realOf_SENTINEL_POS) in Hden. subst cubePos.
  assert (Hloop : Shader.cubeLoop (CUBE_COUNT (newGrass isMobile))
                    (replicate 64 99999) bladePosition = (0, 0)).
  { apply cubeLoop_zero. intros ci Hci. simpl in Hci. apply cubeContrib_far.
    unfold element.
    rewrite !(nth_lookup_Some _ _ _ 99999) by (apply lookup_replicate_2; lia).
    unfold cubeDist, cubeRadius.
    assert (99969 <= length (sub bladePosition (99999, 99999))); [|lra].
    apply length_ge_abs_fst; [lra|]. simpl.
    unfold Rabs in *. destruct (Rcase_abs bladePosition.1);
      destruct (Rcase_abs (bladePosition.1 - 99999)); lra. }
  split; [done|]. unfold cubeDisplacement. rewrite Hloop.
  unfold mul. simpl. f_equal; ring.
Qed.

Lemma C6_cube_channel_unused_witness :
  let g := runAll (newGrass false)
             [mkFrame 1 (Some origin) true (Some [origin]);
              mkFrame 2 (Some origin) true (Some [mkPos 3 3])] in
  denotes (cubePosNode g) (replicate 64 99999) ∧
  Shader.cubeLoop (CUBE_COUNT g) (replicate 64 99999) (10, -20) = (0, 0).
Proof.
  set (frames := [mkFrame 1 (Some origin) true (Some [origin]);
                  mkFrame 2 (Some origin) true (Some [mkPos 3 3])]).
  intros g.
  assert (Hden : denotes (cubePosNode g) (replicate 64 99999)).
  { destruct (C6_cube_channel_unused false frames [] (0, 0) 0) as (_ & -> & _).
    apply Forall2_replicate. apply realOf_SENTINEL_POS. }
  split; [exact Hden|].
  apply (C6_cube_channel_unused false frames (replicate 64 99999) (10, -20) 0).
  - exact Hden.
  - simpl. rewrite Rabs_right; lra.
  - simpl. rewrite Rabs_left; lra.
Defined.

End Evaluator.

(** * Further properties of [Grass.update] *)

(** ** When [update] raises *)

Lemma cubeLoop_lastPos_length time cubes : ∀ i trail lastPos,
  length (cubeLoop time cubes i trail lastPos).1.2 = length lastPos.
Proof.
  induction cubes as [|cube rest IH]; intros i trail lastPos; simpl; [done|].
  destruct (lastPos !! i) as [last|]; [|done].
  destruct (moved cube last); rewrite IH; [apply length_insert|done].
Qed.

Lemma cubeLoop_returns time cubes i trail lastPos :
  i + length cubes ≤ length lastPos →
  (cubeLoop time cubes i trail lastPos).2 = JS.Normal.
Proof.
  intros Hlen.
  destruct (cubeLoop_gate time cubes i trail lastPos Hlen) as (marks & l' & -> & _). done.
Qed.

Lemma recordCubes_completion g time cubes :
  (recordCubes g time (Some cubes)).2 =
    match _cubeLastPos g with
    | Some lastPos => if decide (length lastPos < length cubes)
                      then JS.TypeError else JS.Normal
    | None => JS.Normal
    end.
Proof.
  unfold recordCubes.
  destruct (_cubeLastPos g) as [lastPos|].
  - destruct (decide (length lastPos < length cubes)) as [Hlt|Hge].
    + pose proof (cubeLoop_raises time cubes 0 (_cubeTrail g) lastPos
                    (Nat.le_0_l _) Hlt) as H.
      destruct (cubeLoop _ _ _ _ _) as [[trail l'] c]. simpl in H. by rewrite H.
    + pose proof (cubeLoop_returns time cubes 0 (_cubeTrail g) lastPos
                    ltac:(simpl; lia)) as H.
      destruct (cubeLoop _ _ _ _ _) as [[trail l'] c]. simpl in H. by rewrite H.
  - pose proof (cubeLoop_returns time cubes 0 (_cubeTrail g)
                  (map (fun c => mkPos (p_x c) (p_z c)) cubes)
                  ltac:(rewrite length_map; simpl; lia)) as H.
    destruct (cubeLoop _ _ _ _ _) as [[trail l'] c]. simpl in H. by rewrite H.
Qed.

Lemma update_completion g time p onGround cubes :
  (update g time (Some p) onGround (Some cubes)).2 =
    match _cubeLastPos g with
    | Some lastPos => if decide (length lastPos < length cubes)
                      then JS.TypeError else JS.Normal
    | None => JS.Normal
    end.
Proof.
  unfold update. set (g0 := set_timeNode _ g).
  pose proof (recordCubes_completion (recordPlayer g0 time p onGround) time cubes) as H.
  destruct (recordPlayer_cubes g0 time p onGround) as [_ Hl]. rewrite Hl in H.
  change (_cubeLastPos g0) with (_cubeLastPos g) in H.
  destruct (recordCubes _ _ _) as [g2 []]; simpl in *; done.
Qed.

(** X1.  [update] raises exactly when it is given a player position and a
    cube list longer than the list of remembered positions; in every other
    case it returns. *)
Theorem update_raises_iff (g : Grass) (time : float) (playerPos : option Pos)
    (onGround : bool) (cubePositions : option (list Pos)) :
  (update g time playerPos onGround cubePositions).2 = JS.TypeError ↔
  ∃ p cubes lastPos,
    playerPos = Some p ∧ cubePositions = Some cubes ∧
    _cubeLastPos g = Some lastPos ∧ length lastPos < length cubes.
Proof.
  split.
  - destruct playerPos as [p|]; [|done].
    destruct cubePositions as [cubes|].
    + rewrite update_completion.
      destruct (_cubeLastPos g) as [lastPos|] eqn:E; [|done].
      destruct (decide _); [|done]. intros _. by exists p, cubes, lastPos.
    + unfold update. simpl. done.
  - intros (p & cubes & lastPos & -> & -> & Hl & Hlt).
    rewrite update_completion, Hl. by destruct (decide _).
Qed.

(** ** The remembered positions *)

Lemma recordCubes_lastPos_length g time cubes :
  match _cubeLastPos g with
  | Some lastPos =>
      ∃ l', _cubeLastPos (recordCubes g time cubes).1 = Some l' ∧
            length l' = length lastPos
  | None =>
      match cubes with
      | Some cs => ∃ l', _cubeLastPos (recordCubes g time cubes).1 = Some l' ∧
                         length l' = length cs
      | None => _cubeLastPos (recordCubes g time cubes).1 = None
      end
  end.
Proof.
  unfold recordCubes. destruct cubes as [cs|].
  - destruct (_cubeLastPos g) as [lastPos|] eqn:E.
    + pose proof (cubeLoop_lastPos_length time cs 0 (_cubeTrail g) lastPos) as H.
      destruct (cubeLoop _ _ _ _ _) as [[trail l'] []]; simpl in *; by exists l'.
    + pose proof (cubeLoop_lastPos_length time cs 0 (_cubeTrail g)
                    (map (fun c => mkPos (p_x c) (p_z c)) cs)) as H.
      rewrite length_map in H.
      destruct (cubeLoop _ _ _ _ _) as [[trail l'] []]; simpl in *; by exists l'.
  - destruct (_cubeLastPos g) as [lastPos|] eqn:E; simpl; [|done].
    by exists lastPos.
Qed.

Lemma update_lastPos_length g time playerPos onGround cubes lastPos :
  _cubeLastPos g = Some lastPos →
  ∃ l', _cubeLastPos (update g time playerPos onGround cubes).1 = Some l' ∧
        length l' = length lastPos.
Proof.
  intros Hl. unfold update. destruct playerPos as [p|]; [|by exists lastPos].
  set (g0 := set_timeNode _ g).
  pose proof (recordCubes_lastPos_length (recordPlayer g0 time p onGround) time cubes) as H.
  destruct (recordPlayer_cubes g0 time p onGround) as [_ Hl1]. rewrite Hl1 in H.
  change (_cubeLastPos g0) with (_cubeLastPos g) in H. rewrite Hl in H.
  destruct H as (l' & Hl' & Hlen).
  destruct (recordCubes _ _ _) as [g2 []]; simpl in *.
  - destruct (upload_trails g2 time) as (_ & _ & -> & _). by exists l'.
  - by exists l'.
Qed.

Lemma runAll_lastPos_length frames : ∀ g lastPos,
  _cubeLastPos g = Some lastPos →
  ∃ l', _cubeLastPos (runAll g frames) = Some l' ∧ length l' = length lastPos.
Proof.
  unfold runAll. induction frames as [|fr frames IH]; intros g lastPos Hl; simpl.
  - by exists lastPos.
  - destruct (update_lastPos_length g (f_time fr) (f_playerPos fr) (f_onGround fr)
                (f_cubePositions fr) lastPos Hl) as (l1 & Hl1 & Hlen1).
    destruct (IH _ l1 Hl1) as (l' & Hl' & Hlen'). exists l'. split; [done|lia].
Qed.

(** X2.  The list of remembered positions never changes its length once
    it exists, whatever calls follow and however they end.  A cube list that
    has outgrown it therefore makes every later call raise as well, and the
    packed arrays are then never written again. *)
Theorem grown_cube_list_raises_forever (g : Grass) (lastPos cubes : list Pos)
    (frames : list Frame) (time : float) (p : Pos) (onGround : bool) :
  _cubeLastPos g = Some lastPos →
  length lastPos < length cubes →
  let g' := runAll g frames in
  (∃ l', _cubeLastPos g' = Some l' ∧ length l' = length lastPos) ∧
  (update g' time (Some p) onGround (Some cubes)).2 = JS.TypeError ∧
  trailPosNode (update g' time (Some p) onGround (Some cubes)).1 = trailPosNode g' ∧
  trailAgesNode (update g' time (Some p) onGround (Some cubes)).1 = trailAgesNode g'.
Proof.
  intros Hl Hlt g'.
  destruct (runAll_lastPos_length frames g lastPos Hl) as (l' & Hl' & Hlen).
  fold g' in Hl'. split; [by exists l'|].
  assert (Hraise : (update g' time (Some p) onGround (Some cubes)).2 = JS.TypeError).
  { rewrite update_completion, Hl'. destruct (decide _); [done|lia]. }
  split; [done|].
  unfold update in *. set (g0 := set_timeNode _ g') in *.
  assert (Hp : trailPosNode (recordPlayer g0 time p onGround) = trailPosNode g' ∧
               trailAgesNode (recordPlayer g0 time p onGround) = trailAgesNode g').
  { unfold recordPlayer. by destruct (_ && _). }
  assert (Hc : ∀ g1, trailPosNode (recordCubes g1 time (Some cubes)).1 = trailPosNode g1 ∧
                     trailAgesNode (recordCubes g1 time (Some cubes)).1 = trailAgesNode g1).
  { intros g1. unfold recordCubes.
    by destruct (cubeLoop _ _ _ _ _) as [[trail l1] []]. }
  specialize (Hc (recordPlayer g0 time p onGround)).
  destruct (recordCubes _ _ _) as [g2 []]; simpl in *; [done|].
  destruct Hc as [-> ->]. done.
Qed.

Lemma grown_cube_list_raises_forever_witness :
  let g := (update (newGrass false) 0 (Some origin) true (Some [origin])).1 in
  let g' := runAll g [mkFrame 1 (Some origin) true (Some [origin; origin]);
                      mkFrame 2 (Some origin) true None] in
  _cubeLastPos g = Some [origin] ∧
  (update g' 3 (Some origin) true (Some [origin; origin])).2 = JS.TypeError.
Proof.
  intros g g'.
  assert (Hl : _cubeLastPos g = Some [origin]) by (vm_compute; reflexivity).
  split; [exact Hl|].
  apply (grown_cube_list_raises_forever g [origin] [origin; origin]
           [mkFrame 1 (Some origin) true (Some [origin; origin]);
            mkFrame 2 (Some origin) true None] 3 origin true Hl).
  simpl; lia.
Defined.

(** X3.  When every cube list passed has the same length (the cube wall
    of the game loop never gains or loses a cube), no call raises: the whole
    sequence of calls returns, with or without player positions. *)
Theorem constant_cube_count_never_raises (isMobile : bool) (n : nat)
    (frames : list Frame) :
  Forall (fun fr => ∀ cubes, f_cubePositions fr = Some cubes → length cubes = n) frames →
  is_Some (run (newGrass isMobile) frames).
Proof.
  intros Hall.
  assert (Hgen : ∀ g, (∀ l, _cubeLastPos g = Some l → length l = n) →
                      is_Some (run g frames)).
  { induction Hall as [|fr frames Hfr Hall IH]; intros g Hinv; simpl; [by eexists|].
    unfold step.
    destruct (update g (f_time fr) (f_playerPos fr) (f_onGround fr) (f_cubePositions fr))
      as [g1 c] eqn:Hup.
    assert (Hc : c = JS.Normal).
    { replace c with (update g (f_time fr) (f_playerPos fr) (f_onGround fr)
                        (f_cubePositions fr)).2 by (by rewrite Hup).
      destruct (f_playerPos fr) as [p|]; [|done].
      destruct (f_cubePositions fr) as [cs|] eqn:Ecs; [|done].
      rewrite update_completion.
      destruct (_cubeLastPos g) as [l|] eqn:El; [|done].
      destruct (decide _) as [Hlt|]; [|done].
      rewrite (Hinv l eq_refl), (Hfr cs eq_refl) in Hlt. lia. }
    subst c. apply IH. intros l1 Hl1.
    assert (Hg1 : g1 = (update g (f_time fr) (f_playerPos fr) (f_onGround fr)
                          (f_cubePositions fr)).1) by (by rewrite Hup).
    destruct (_cubeLastPos g) as [l|] eqn:El.
    - destruct (update_lastPos_length g (f_time fr) (f_playerPos fr) (f_onGround fr)
                  (f_cubePositions fr) l El) as (l' & Hl' & Hlen).
      rewrite <- Hg1, Hl1 in Hl'. injection Hl' as <-. rewrite Hlen. by apply Hinv.
    - subst g1. unfold update in Hl1.
      destruct (f_playerPos fr) as [p|]; [|simpl in Hl1; congruence].
      set (g0 := set_timeNode _ g) in Hl1.
      pose proof (recordCubes_lastPos_length (recordPlayer g0 (f_time fr) p (f_onGround fr))
                    (f_time fr) (f_cubePositions fr)) as H.
      destruct (recordPlayer_cubes g0 (f_time fr) p (f_onGround fr)) as [_ Hl0].
      rewrite Hl0 in H. change (_cubeLastPos g0) with (_cubeLastPos g) in H.
      rewrite El in H.
      destruct (f_cubePositions fr) as [cs|] eqn:Ecs.
      + destruct H as (l' & Hl' & Hlen).
        destruct (recordCubes _ _ _) as [g2 []]; simpl in *.
        * destruct (upload_trails g2 (f_time fr)) as (_ & _ & Hu & _).
          rewrite Hu, Hl' in Hl1. injection Hl1 as <-. rewrite Hlen. by apply Hfr.
        * rewrite Hl' in Hl1. injection Hl1 as <-. rewrite Hlen. by apply Hfr.
      + destruct (recordCubes _ _ _) as [g2 []]; simpl in *.
        * destruct (upload_trails g2 (f_time fr)) as (_ & _ & Hu & _).
          rewrite Hu in Hl1. congruence.
        * congruence. }
  apply Hgen. intros l Hl. simpl in Hl. done.
Qed.

Lemma constant_cube_count_never_raises_witness :
  is_Some (run (newGrass false)
             [mkFrame 0 (Some origin) true (Some [origin; mkPos 1 1]);
              mkFrame 1 None true (Some [mkPos 2 2; mkPos 1 1]);
              mkFrame 2 (Some origin) false (Some [mkPos 3 3; mkPos 1 1])]).
Proof.
  apply (constant_cube_count_never_raises false 2).
  repeat constructor; intros cubes [= <-]; reflexivity.
Defined.

(** ** The uniform arrays *)

Lemma array_set_length_inside (arr : list float) (i : nat) (v : float) :
  i < length arr → length (JS.array_set arr i v) = length arr.
Proof.
  intros Hin. unfold JS.array_set.
  destruct (decide (i < length arr)); [|lia]. by rewrite length_insert.
Qed.

Lemma packTrail_lengths n time trail : ∀ s pos ages,
  length pos = n * 2 → length ages = n →
  length (packTrail n time trail s pos ages).1.2 = n * 2 ∧
  length (packTrail n time trail s pos ages).2 = n.
Proof.
  induction trail as [|e rest IH]; intros s pos ages Hp Ha; simpl; [done|].
  destruct (decide (s < n)); [|done].
  apply IH; rewrite ?array_set_length_inside; rewrite ?array_set_length_inside; lia.
Qed.

Lemma fillSentinel_lengths n remaining : ∀ s pos ages,
  s + remaining ≤ n → length pos = n * 2 → length ages = n →
  length (fillSentinel remaining s pos ages).1 = n * 2 ∧
  length (fillSentinel remaining s pos ages).2 = n.
Proof.
  induction remaining as [|r IH]; intros s pos ages Hs Hp Ha; simpl; [done|].
  apply IH; rewrite ?array_set_length_inside; rewrite ?array_set_length_inside; lia.
Qed.

Lemma upload_lengths g time :
  length (trailPosNode g) = TRAIL_SIZE g * 2 → length (trailAgesNode g) = TRAIL_SIZE g →
  length (trailPosNode (upload g time)) = TRAIL_SIZE g * 2 ∧
  length (trailAgesNode (upload g time)) = TRAIL_SIZE g.
Proof.
  intros Hp Ha. unfold upload.
  pose proof (packTrail_lengths (TRAIL_SIZE g) time (_playerTrail g) 0 _ _ Hp Ha) as H1.
  pose proof (packTrail_spec (TRAIL_SIZE g) time (_playerTrail g) 0
                (trailPosNode g) (trailAgesNode g)) as S1.
  destruct (packTrail _ _ (_playerTrail g) _ _ _) as [[s1 pos1] ages1].
  destruct (S1 _ _ _ eq_refl) as (Hs1 & _). destruct H1 as [Hp1 Ha1]. simpl in Hp1, Ha1.
  pose proof (packTrail_lengths (TRAIL_SIZE g) time (_cubeTrail g) s1 _ _ Hp1 Ha1) as H2.
  pose proof (packTrail_spec (TRAIL_SIZE g) time (_cubeTrail g) s1 pos1 ages1) as S2.
  destruct (packTrail _ _ (_cubeTrail g) _ _ _) as [[s2 pos2] ages2].
  destruct (S2 _ _ _ eq_refl) as (Hs2 & _). destruct H2 as [Hp2 Ha2]. simpl in Hp2, Ha2.
  pose proof (fillSentinel_lengths (TRAIL_SIZE g) (TRAIL_SIZE g - s2) s2 pos2 ages2
                ltac:(lia) Hp2 Ha2) as H3.
  by destruct (fillSentinel _ _ _ _) as [pos3 ages3].
Qed.

Lemma update_lengths g time playerPos onGround cubes :
  length (trailPosNode g) = TRAIL_SIZE g * 2 → length (trailAgesNode g) = TRAIL_SIZE g →
  length (trailPosNode (update g time playerPos onGround cubes).1) = TRAIL_SIZE g * 2 ∧
  length (trailAgesNode (update g time playerPos onGround cubes).1) = TRAIL_SIZE g.
Proof.
  intros Hp Ha. unfold update. destruct playerPos as [p|]; [|done].
  set (g0 := set_timeNode _ g). set (g1 := recordPlayer g0 time p onGround).
  assert (H1 : trailPosNode g1 = trailPosNode g ∧ trailAgesNode g1 = trailAgesNode g ∧
               TRAIL_SIZE g1 = TRAIL_SIZE g).
  { unfold g1, recordPlayer. by destruct (_ && _). }
  assert (H2 : trailPosNode (recordCubes g1 time cubes).1 = trailPosNode g1 ∧
               trailAgesNode (recordCubes g1 time cubes).1 = trailAgesNode g1 ∧
               TRAIL_SIZE (recordCubes g1 time cubes).1 = TRAIL_SIZE g1).
  { unfold recordCubes. destruct cubes as [cs|]; [|done].
    by destruct (cubeLoop _ _ _ _ _) as [[trail l1] []]. }
  destruct H1 as (E1 & E2 & E3). destruct H2 as (F1 & F2 & F3).
  destruct (recordCubes _ _ _) as [g2 []]; simpl in *.
  - rewrite <- E3, <- F3. apply upload_lengths; congruence.
  - split; congruence.
Qed.

Lemma runAll_lengths frames : ∀ g,
  length (trailPosNode g) = TRAIL_SIZE g * 2 → length (trailAgesNode g) = TRAIL_SIZE g →
  length (trailPosNode (runAll g frames)) = TRAIL_SIZE g * 2 ∧
  length (trailAgesNode (runAll g frames)) = TRAIL_SIZE g.
Proof.
  unfold runAll. induction frames as [|fr frames IH]; intros g Hp Ha; simpl; [done|].
  destruct (update_lengths g (f_time fr) (f_playerPos fr) (f_onGround fr)
              (f_cubePositions fr) Hp Ha) as [Hp1 Ha1].
  destruct (update_constants g (f_time fr) (f_playerPos fr) (f_onGround fr)
              (f_cubePositions fr)) as (_ & Hn1 & _).
  unfold step. rewrite <- Hn1 in *. by apply IH.
Qed.

(** X4.  The uniform arrays never change size: after any calls on a new
    [Grass], returning or not, [trailPosNode] holds [2 * TRAIL_SIZE] values
    and [trailAgesNode] holds [TRAIL_SIZE]; every write of the packer lands
    inside the arrays. *)
Theorem uniform_arrays_keep_their_size (isMobile : bool) (frames : list Frame) :
  let g := runAll (newGrass isMobile) frames in
  TRAIL_SIZE g = (if isMobile then 40 else 80) ∧
  length (trailPosNode g) = TRAIL_SIZE g * 2 ∧
  length (trailAgesNode g) = TRAIL_SIZE g.
Proof.
  intros g.
  destruct (runAll_constants frames (newGrass isMobile)) as (_ & Hn & _).
  fold g in Hn. split; [by rewrite Hn|]. rewrite Hn.
  apply runAll_lengths; destruct isMobile; reflexivity.
Qed.

(** ** The upload rewrites every slot *)

Lemma upload_slot (g : Grass) (time : float) (q : nat) :
  q < TRAIL_SIZE g →
  holds (trailPosNode (upload g time)) (trailAgesNode (upload g time)) q
        (slotOf time (_playerTrail g ++ _cubeTrail g) q).
Proof.
  intros Hq. unfold upload.
  destruct (packTrail _ _ (_playerTrail g) _ _ _) as [[s1 pos1] ages1] eqn:E1.
  destruct (packTrail _ _ (_cubeTrail g) _ _ _) as [[s2 pos2] ages2] eqn:E2.
  destruct (fillSentinel _ _ _ _) as [pos3 ages3] eqn:E3.
  apply packTrail_spec in E1 as (Hs1 & Hnew1 & _).
  apply packTrail_spec in E2 as (Hs2 & Hnew2 & Hold2).
  apply fillSentinel_spec in E3 as (Hnew3 & Hold3).
  simpl. unfold slotOf.
  destruct (decide (q < length (_playerTrail g))) as [Hp|Hp].
  - destruct (lookup_lt_is_Some_2 _ _ Hp) as [e He].
    rewrite (lookup_app_l_Some _ _ _ _ He).
    apply Hold3; [lia|]. apply Hold2; [lia|]. by apply (Hnew1 q e He).
  - rewrite lookup_app_r by lia.
    destruct (_cubeTrail g !! (q - length (_playerTrail g))) as [e|] eqn:He.
    + pose proof (lookup_lt_Some _ _ _ He) as Hj.
      apply Hold3; [lia|].
      replace q with (s1 + (q - length (_playerTrail g))) at 1 by lia.
      apply Hnew2; [done|lia].
    + apply lookup_ge_None in He. apply Hnew3; lia.
Qed.

Lemma flat_pairs_lookup (a b : nat → float) (l : list nat) : ∀ j,
  flat_map (fun q => [a q; b q]) l !! (j * 2) = a <$> l !! j ∧
  flat_map (fun q => [a q; b q]) l !! (j * 2 + 1) = b <$> l !! j.
Proof.
  induction l as [|q l IH]; intros j; simpl; [done|].
  destruct j as [|j]; [done|]. simpl. apply IH.
Qed.

Lemma flat_pairs_length (a b : nat → float) (l : list nat) :
  length (flat_map (fun q => [a q; b q]) l) = length l * 2.
Proof. induction l as [|q l IH]; simpl; [done|]. rewrite IH. lia. Qed.

(** X5.  The upload leaves nothing of the previous frame in the arrays:
    on arrays of the declared sizes its result is a function of the two
    trails and the time alone.  Slot [q] holds the [q]-th footprint of the
    player trail followed by the cube trail, with age [time - t], and the
    sentinel when there are no more footprints. *)
Theorem upload_rewrites_every_slot (g : Grass) (time : float) :
  length (trailPosNode g) = TRAIL_SIZE g * 2 →
  length (trailAgesNode g) = TRAIL_SIZE g →
  trailPosNode (upload g time)
    = packedPos (TRAIL_SIZE g) time (_playerTrail g) (_cubeTrail g) ∧
  trailAgesNode (upload g time)
    = packedAges (TRAIL_SIZE g) time (_playerTrail g) (_cubeTrail g).
Proof.
  intros Hp Ha. destruct (upload_lengths g time Hp Ha) as [Hp' Ha'].
  split; apply list_eq; intros i.
  - unfold packedPos.
    destruct (decide (i < TRAIL_SIZE g * 2)) as [Hi|Hi].
    + assert (Hcase : ∃ q, q < TRAIL_SIZE g ∧ (i = q * 2 ∨ i = q * 2 + 1)).
      { destruct (Nat.Even_or_Odd i) as [[q ->]|[q ->]]; exists q; split; lia. }
      destruct Hcase as (q & Hq & Hcase).
      destruct (upload_slot g time q Hq) as (Hx & Hz & _).
      destruct (flat_pairs_lookup
        (fun q => (slotOf time (_playerTrail g ++ _cubeTrail g) q).1.1)
        (fun q => (slotOf time (_playerTrail g ++ _cubeTrail g) q).1.2)
        (seq 0 (TRAIL_SIZE g)) q) as [Fx Fz].
      rewrite lookup_seq_lt in Fx, Fz by done. simpl in Fx, Fz.
      destruct Hcase as [-> | ->]; [by rewrite Hx, Fx | by rewrite Hz, Fz].
    + rewrite !lookup_ge_None_2; [done| |lia].
      rewrite flat_pairs_length, length_seq. lia.
  - unfold packedAges.
    destruct (decide (i < TRAIL_SIZE g)) as [Hi|Hi].
    + destruct (upload_slot g time i Hi) as (_ & _ & Hage).
      rewrite Hage, list_lookup_fmap, lookup_seq_lt by done. done.
    + rewrite !lookup_ge_None_2; [done| |lia].
      rewrite length_map, length_seq. lia.
Qed.

Lemma upload_rewrites_every_slot_witness :
  let g := (update (newGrass true) 1 (Some (mkPos 2 3)) true None).1 in
  trailAgesNode (upload g 2) = packedAges 40 2 [mkEntry 2 3 1] [].
Proof.
  intros g.
  apply (upload_rewrites_every_slot g 2); vm_compute; reflexivity.
Defined.

(** ** The two trails are separate *)

Lemma update_player_part g time p onGround cubes :
  _playerTrail (update g time (Some p) onGround cubes).1
    = _playerTrail (recordPlayer (set_timeNode (PrimFloat.mul time 2) g) time p onGround) ∧
  _lastSampleTime (update g time (Some p) onGround cubes).1
    = _lastSampleTime (recordPlayer (set_timeNode (PrimFloat.mul time 2) g) time p onGround).
Proof.
  unfold update. set (g1 := recordPlayer _ time p onGround).
  destruct (recordCubes_player g1 time cubes) as [Ht El].
  destruct (recordCubes g1 time cubes) as [g2 []]; simpl in *.
  - destruct (upload_trails g2 time) as (-> & _ & _ & -> & _). done.
  - done.
Qed.

(** X6.  The cube list has no effect on the player trail: whatever list is
    passed, and whether the call returns or raises, the player trail and the
    time of the last player sample end up as they do without any list. *)
Theorem player_trail_ignores_cubes (g : Grass) (time : float) (playerPos : option Pos)
    (onGround : bool) (cubePositions : option (list Pos)) :
  _playerTrail (update g time playerPos onGround cubePositions).1
    = _playerTrail (update g time playerPos onGround None).1 ∧
  _lastSampleTime (update g time playerPos onGround cubePositions).1
    = _lastSampleTime (update g time playerPos onGround None).1.
Proof.
  destruct playerPos as [p|]; [|done].
  destruct (update_player_part g time p onGround cubePositions) as [-> ->].
  destruct (update_player_part g time p onGround None) as [-> ->]. done.
Qed.

(** ** Where footprints come from *)

Lemma prune_In g time slots trail e : In e (prune g time slots trail) → In e trail.
Proof.
  unfold prune.
  destruct (decide (slots < length (List.filter (fresh g time) trail))); intros Hin.
  - apply slice_last_In in Hin. by apply filter_In in Hin as [? _].
  - by apply filter_In in Hin as [? _].
Qed.

Lemma update_playerTrail_In g time playerPos onGround cubes e :
  In e (_playerTrail (update g time playerPos onGround cubes).1) →
  In e (_playerTrail g) ∨
  ∃ p, playerPos = Some p ∧ onGround = true ∧ e = mkEntry (p_x p) (p_z p) time.
Proof.
  destruct playerPos as [p|]; [|by left].
  destruct (update_player_part g time p onGround cubes) as [-> _].
  unfold recordPlayer. destruct onGround; simpl; [|by left].
  destruct (JS.gt _ _); simpl; [|by left].
  intros Hin. apply prune_In in Hin. apply in_app_or in Hin as [Hin|[<-|[]]].
  - by left.
  - right. by exists p.
Qed.

(** X7.  The player trail holds nothing but samples that were passed in:
    after any calls on a new [Grass], every entry is the position and the
    time of one of the calls, and that call was made with the player on the
    ground. *)
Theorem player_trail_provenance (isMobile : bool) (frames : list Frame)
    (e : FootprintEntry) :
  In e (_playerTrail (runAll (newGrass isMobile) frames)) →
  ∃ fr p, In fr frames ∧ f_playerPos fr = Some p ∧ f_onGround fr = true ∧
          e = mkEntry (p_x p) (p_z p) (f_time fr).
Proof.
  assert (Hgen : ∀ g, In e (_playerTrail (runAll g frames)) →
            In e (_playerTrail g) ∨
            ∃ fr p, In fr frames ∧ f_playerPos fr = Some p ∧ f_onGround fr = true ∧
                    e = mkEntry (p_x p) (p_z p) (f_time fr)).
  { unfold runAll. induction frames as [|fr frames IH]; intros g Hin; simpl in *; [by left|].
    destruct (IH _ Hin) as [Hold | (fr' & p & Hfr & Hp & Hg & He)].
    - apply update_playerTrail_In in Hold as [Hold | (p & Hp & Hg & He)]; [by left|].
      right. exists fr, p. split; [by left|done].
    - right. exists fr', p. split; [by right|done]. }
  intros Hin. destruct (Hgen _ Hin) as [[]|H]. exact H.
Qed.

Lemma player_trail_provenance_witness :
  ∃ fr p, In fr [mkFrame 1 (Some (mkPos 2 3)) true None] ∧
          f_playerPos fr = Some p ∧ f_onGround fr = true ∧
          mkEntry 2 3 1 = mkEntry (p_x p) (p_z p) (f_time fr).
Proof.
  apply (player_trail_provenance false [mkFrame 1 (Some (mkPos 2 3)) true None]).
  vm_compute. left. reflexivity.
Defined.

(** ** Binary64 facts the recorder relies on *)

Lemma sub_self (x : float) :
  Prim2SF (PrimFloat.sub x x) = S754_zero false ∨ Prim2SF (PrimFloat.sub x x) = S754_nan.
Proof.
  rewrite sub_spec. unfold SF64sub, SFsub.
  destruct (Prim2SF x) as [s|s| |s m e].
  - left. by destruct s.
  - right. by destruct s.
  - by right.
  - left. cbn. by rewrite Z.sub_diag.
Qed.

Lemma is_finite_Prim2SF (x : float) :
  PrimFloat.is_finite x = true →
  (∃ s, Prim2SF x = S754_zero s) ∨ (∃ s m e, Prim2SF x = S754_finite s m e).
Proof.
  unfold is_finite, is_nan, is_infinity.
  rewrite !FloatAxioms.eqb_spec, abs_spec.
  destruct (Prim2SF x) as [s|s| |s m e]; intros H.
  - left. by exists s.
  - exfalso. destruct s; vm_compute in H; discriminate.
  - exfalso. vm_compute in H. discriminate.
  - right. by exists s, m, e.
Qed.

Lemma sub_self_finite (x : float) :
  PrimFloat.is_finite x = true → PrimFloat.sub x x = 0%float.
Proof.
  intros Hfin. rewrite <- (SF2Prim_Prim2SF (PrimFloat.sub x x)).
  rewrite sub_spec. unfold SF64sub, SFsub.
  destruct (is_finite_Prim2SF x Hfin) as [[s ->] | (s & m & e & ->)].
  - by destruct s.
  - cbn. by rewrite Z.sub_diag.
Qed.

Lemma moved_self (cube last : Pos) :
  p_x last = p_x cube → p_z last = p_z cube → moved cube last = false.
Proof.
  unfold moved, JS.gt. intros -> ->.
  rewrite ltb_spec, add_spec, !mul_spec.
  destruct (sub_self (p_x cube)) as [-> | ->];
    destruct (sub_self (p_z cube)) as [-> | ->]; reflexivity.
Qed.

(** ** Cubes that have not moved *)

Lemma cubeLoop_stationary time cubes : ∀ i trail lastPos,
  (∀ j cube, cubes !! j = Some cube →
     ∃ last, lastPos !! (i + j) = Some last ∧ moved cube last = false) →
  cubeLoop time cubes i trail lastPos = (trail, lastPos, JS.Normal).
Proof.
  induction cubes as [|cube rest IH]; intros i trail lastPos Hstill; simpl; [done|].
  destruct (Hstill 0 cube eq_refl) as (last & Hlast & Hm).
  rewrite Nat.add_0_r in Hlast. rewrite Hlast, Hm. apply IH.
  intros j c Hc. replace (S i + j) with (i + S j) by lia. by apply Hstill.
Qed.

(** X8.  A cube that is where it was remembered leaves no footprint,
    whatever its coordinates (NaN and infinities included).  In particular
    the call that first remembers the positions records nothing: with no
    remembered positions, or with every cube at its remembered position, the
    call returns, pushes nothing on the cube trail (which is only pruned)
    and remembers the positions it was given. *)
Theorem stationary_cubes_leave_no_footprint (g : Grass) (time : float) (p : Pos)
    (onGround : bool) (cubes : list Pos) :
  _cubeLastPos g = None ∨ _cubeLastPos g = Some cubes →
  (update g time (Some p) onGround (Some cubes)).2 = JS.Normal ∧
  _cubeTrail (update g time (Some p) onGround (Some cubes)).1
    = prune g time (CUBE_SLOTS g) (_cubeTrail g) ∧
  _cubeLastPos (update g time (Some p) onGround (Some cubes)).1 = Some cubes.
Proof.
  intros Hlast. unfold update. set (g0 := set_timeNode _ g).
  set (g1 := recordPlayer g0 time p onGround).
  destruct (recordPlayer_cubes g0 time p onGround) as [Ht Hl]. fold g1 in Ht, Hl.
  assert (Hc : same_constants g g1).
  { eapply same_constants_trans; [|apply recordPlayer_constants]. by repeat split. }
  assert (Hmap : map (fun c => mkPos (p_x c) (p_z c)) cubes = cubes).
  { clear. induction cubes as [|[x z] cubes IH]; simpl; [done|]. by rewrite IH. }
  assert (Hpos : match _cubeLastPos g1 with
                 | None => map (fun c => mkPos (p_x c) (p_z c)) cubes
                 | Some l => l
                 end = cubes).
  { rewrite Hl. change (_cubeLastPos g0) with (_cubeLastPos g).
    by destruct Hlast as [-> | ->]. }
  unfold recordCubes. rewrite Hpos.
  rewrite (cubeLoop_stationary time cubes 0 (_cubeTrail g1) cubes).
  - simpl.
    destruct (upload_trails
      (set_cubes (prune g1 time (CUBE_SLOTS g1) (_cubeTrail g1)) (Some cubes) g1) time)
      as (_ & -> & -> & _).
    simpl. rewrite (prune_same_constants g g1) by done. rewrite Ht.
    destruct Hc as (_ & _ & _ & -> & _). done.
  - intros j cube Hj. exists cube. split; [done|]. by apply moved_self.
Qed.

Lemma stationary_cubes_leave_no_footprint_witness :
  _cubeTrail (update (newGrass false) 1 (Some origin) true
                (Some [mkPos nan 0; mkPos infinity 2; mkPos 7 7])).1 = [] ∧
  _cubeLastPos (update (newGrass false) 1 (Some origin) true
                  (Some [mkPos nan 0; mkPos infinity 2; mkPos 7 7])).1
    = Some [mkPos nan 0; mkPos infinity 2; mkPos 7 7].
Proof.
  destruct (stationary_cubes_leave_no_footprint (newGrass false) 1 origin true
              [mkPos nan 0; mkPos infinity 2; mkPos 7 7] (or_introl eq_refl))
    as (_ & Htrail & Hlast).
  split; [exact Htrail | exact Hlast].
Defined.

(** ** The newest sample *)

Lemma prune_snoc g time slots trail e :
  0 < slots → fresh g time e = true →
  ∃ older, prune g time slots (trail ++ [e]) = older ++ [e] ∧
           (∀ e', In e' older → In e' trail) ∧ length older < slots.
Proof.
  intros Hpos Hfresh. unfold prune.
  rewrite List.filter_app. simpl. rewrite Hfresh.
  set (kept := List.filter (fresh g time) trail).
  assert (Hkept : ∀ e', In e' kept → In e' trail).
  { intros e' Hin. by apply filter_In in Hin as [? _]. }
  destruct (decide (slots < length (kept ++ [e]))) as [Hlong|Hshort].
  - rewrite length_app in Hlong. simpl in Hlong.
    destruct slots as [|n]; [lia|]. unfold JS.slice_last.
    rewrite length_app. simpl.
    exists (drop (length kept + 1 - S n) kept). split; [|split].
    + rewrite drop_app_le by lia. done.
    + intros e' Hin. apply Hkept. rewrite <- list_elem_of_In in *.
      by eapply subseteq_drop.
    + rewrite length_drop. lia.
  - exists kept. rewrite length_app in Hshort. simpl in Hshort.
    split; [done|]. split; [done|lia].
Qed.

(** X9.  A sampling call always keeps its own sample: on a [Grass] that
    was created by the constructor, when the time is finite, the player is
    on the ground and more than [SAMPLE_INTERVAL] has passed since the last
    sample, the player trail ends with the new footprint, all the entries
    before it were in the trail already (eviction only drops old entries),
    and the time becomes the time of the last sample. *)
Theorem newest_sample_is_kept (isMobile : bool) (frames : list Frame) (time : float)
    (p : Pos) (cubes : option (list Pos)) :
  let g := runAll (newGrass isMobile) frames in
  PrimFloat.is_finite time = true →
  JS.gt (PrimFloat.sub time (_lastSampleTime g)) SAMPLE_INTERVAL = true →
  ∃ older,
    _playerTrail (update g time (Some p) true cubes).1
      = older ++ [mkEntry (p_x p) (p_z p) time] ∧
    (∀ e, In e older → In e (_playerTrail g)) ∧
    length older < PLAYER_SLOTS g ∧
    _lastSampleTime (update g time (Some p) true cubes).1 = time.
Proof.
  intros g Hfin Hgt.
  destruct (runAll_constants frames (newGrass isMobile))
    as (_ & _ & HP & _ & Hh & Hf & _). fold g in HP, Hh, Hf.
  destruct (update_player_part g time p true cubes) as [-> ->].
  unfold recordPlayer. change (_lastSampleTime (set_timeNode _ g)) with (_lastSampleTime g).
  rewrite Hgt. simpl.
  destruct (prune_snoc (set_timeNode (PrimFloat.mul time 2) g) time (PLAYER_SLOTS g)
              (_playerTrail g) (mkEntry (p_x p) (p_z p) time))
    as (older & Heq & Hin & Hlen).
  - rewrite HP. destruct isMobile; simpl; lia.
  - unfold fresh, totalTime. simpl. rewrite Hh, Hf, (sub_self_finite time Hfin).
    vm_compute. reflexivity.
  - exists older. by rewrite Heq.
Qed.

Lemma newest_sample_is_kept_witness :
  ∃ older,
    _playerTrail (update (runAll (newGrass false) [mkFrame 1 (Some origin) true None])
                    2 (Some (mkPos 5 6)) true None).1
      = older ++ [mkEntry 5 6 2].
Proof.
  destruct (newest_sample_is_kept false [mkFrame 1 (Some origin) true None] 2
              (mkPos 5 6) None) as (older & Heq & _).
  - vm_compute; reflexivity.
  - vm_compute; reflexivity.
  - exists older. exact Heq.
Defined.

(** * Further properties of the evaluator *)

Section EvaluatorMore.

Import Shader.
Local Open Scope R_scope.

Lemma hermite_pos (t : R) : 0 <= t <= 1 → (0 < t * t * (3 - 2 * t) ↔ 0 < t).
Proof.
  intros [H0 H1]. split.
  - intros Hpos. destruct (Rle_lt_or_eq_dec 0 t H0) as [Hlt|<-]; [done|]. lra.
  - intros Ht. apply Rmult_lt_0_compat; [apply Rmult_lt_0_compat|]; lra.
Qed.

Lemma clamp_pos (x : R) : 0 < clamp x 0 1 ↔ 0 < x.
Proof.
  unfold clamp, Rmin, Rmax.
  destruct (Rle_dec x 0); destruct (Rle_dec _ 1); lra.
Qed.

Lemma smoothstep_pos (low high x : R) :
  0 < smoothstep low high x ↔ 0 < (x - low) / (high - low).
Proof.
  unfold smoothstep. rewrite hermite_pos by apply clamp_unit. apply clamp_pos.
Qed.

Lemma dist_pos (bladePosition trailPoint : vec2) : 0 < dist bladePosition trailPoint.
Proof.
  unfold dist. pose proof (length_nonneg (sub bladePosition trailPoint)). lra.
Qed.

(** X10.  A footprint acts on a blade exactly when it is in reach and not
    expired: the weight is positive if and only if
    [|bladePosition - trailPoint| + 0.001 < playerRadius] and [age < 4];
    otherwise the weight is 0 and the contribution is the zero vector. *)
Theorem weight_positive_iff (bladePosition trailPoint : vec2) (age : R) :
  (0 < weight bladePosition trailPoint age ↔
   dist bladePosition trailPoint < playerRadius ∧ age < 4) ∧
  (¬ (dist bladePosition trailPoint < playerRadius ∧ age < 4) →
   weight bladePosition trailPoint age = 0 ∧
   contribution bladePosition trailPoint age = (0, 0)).
Proof.
  assert (Hs : 0 < spatialFalloff bladePosition trailPoint
               ↔ dist bladePosition trailPoint < playerRadius).
  { unfold spatialFalloff. rewrite smoothstep_pos. unfold playerRadius.
    replace ((dist bladePosition trailPoint - 1) / (0 - 1))
      with (1 - dist bladePosition trailPoint) by (field; lra). lra. }
  assert (Ht : 0 < timeFalloff age ↔ age < 4).
  { unfold timeFalloff. rewrite smoothstep_pos.
    replace ((age - 4) / (3 - 4)) with (4 - age) by (field; lra). lra. }
  pose proof (smoothstep_unit playerRadius 0 (dist bladePosition trailPoint)) as [Hs0 _].
  pose proof (smoothstep_unit 4 3 age) as [Ht0 _].
  fold (spatialFalloff bladePosition trailPoint) in Hs0. fold (timeFalloff age) in Ht0.
  assert (Hiff : 0 < weight bladePosition trailPoint age ↔
                 dist bladePosition trailPoint < playerRadius ∧ age < 4).
  { unfold weight. rewrite <- Hs, <- Ht. split.
    - intros Hw. split.
      + destruct (Rle_lt_or_eq_dec _ _ Hs0) as [|E]; [done|]. rewrite <- E in Hw. lra.
      + destruct (Rle_lt_or_eq_dec _ _ Ht0) as [|E]; [done|]. rewrite <- E in Hw. lra.
    - intros [H1 H2]. by apply Rmult_lt_0_compat. }
  split; [done|]. intros Hnot.
  assert (Hw : weight bladePosition trailPoint age = 0).
  { pose proof (weight_unit bladePosition trailPoint age) as [Hw0 _].
    destruct (Rle_lt_or_eq_dec _ _ Hw0) as [Hpos|E]; [|done].
    exfalso. apply Hnot. by apply Hiff. }
  split; [done|]. unfold contribution. rewrite Hw. apply mul_zero.
Qed.

Lemma weight_positive_iff_witness :
  0 < weight (0.5, 0) (0, 0) 0.05 ∧ weight (2, 0) (0, 0) 0.05 = 0.
Proof.
  assert (Hlen : ∀ x, 0 <= x → length (sub (x, 0) (0, 0)) = x).
  { intros x Hx. unfold length, sub. simpl.
    replace ((x - 0) * (x - 0) + (0 - 0) * (0 - 0)) with (x * x) by ring.
    by apply sqrt_square. }
  split.
  - apply (weight_positive_iff (0.5, 0) (0, 0) 0.05).
    unfold dist, playerRadius. rewrite Hlen; lra.
  - apply (weight_positive_iff (2, 0) (0, 0) 0.05).
    unfold dist, playerRadius. rewrite Hlen; lra.
Defined.

(** X11.  The push is directed away from the footprint: the contribution
    is the vector from the footprint to the blade scaled by a factor that
    is never negative, and this factor is [weight / dist]. *)
Theorem contribution_points_away (bladePosition trailPoint : vec2) (age : R) :
  let k := weight bladePosition trailPoint age / dist bladePosition trailPoint in
  0 <= k ∧
  contribution bladePosition trailPoint age = mul (sub bladePosition trailPoint) k.
Proof.
  intros k. pose proof (dist_pos bladePosition trailPoint) as Hd.
  pose proof (weight_unit bladePosition trailPoint age) as [Hw _].
  split.
  - unfold k. apply Rmult_le_pos; [done|]. left. by apply Rinv_0_lt_compat.
  - unfold contribution, mul, div, k. simpl. f_equal; field; lra.
Qed.

Lemma fold_keepMax_grows (contrib : nat → vec2) (slots : list nat) : ∀ totalPush,
  length totalPush
  <= length (fold_left (fun acc i => keepMax acc (contrib i)) slots totalPush).
Proof.
  induction slots as [|i slots IH]; intros totalPush; simpl; [lra|].
  eapply Rle_trans; [|apply IH]. unfold keepMax.
  destruct (Rlt_dec _ _); lra.
Qed.

Lemma fold_keepMax_dominates (contrib : nat → vec2) (slots : list nat) : ∀ totalPush i,
  In i slots →
  length (contrib i)
  <= length (fold_left (fun acc i => keepMax acc (contrib i)) slots totalPush).
Proof.
  induction slots as [|j slots IH]; intros totalPush i Hin; simpl; [done|].
  destruct Hin as [->|Hin]; [|by apply IH].
  eapply Rle_trans; [|apply fold_keepMax_grows]. unfold keepMax.
  destruct (Rlt_dec _ _); lra.
Qed.

(** X12.  The loop keeps the strongest contribution: the push it returns
    is at least as long as the contribution of every slot it visits. *)
Theorem trailLoop_keeps_the_strongest (trail_size : nat) (trailPos trailAges : list R)
    (bladePosition : vec2) (i : nat) :
  (i < trail_size)%nat →
  length (contribution bladePosition
            (element trailPos (i * 2), element trailPos (i * 2 + 1))
            (element trailAges i))
  <= length (trailLoop trail_size trailPos trailAges bladePosition).
Proof.
  intros Hi. unfold trailLoop.
  apply (fold_keepMax_dominates
    (fun i => contribution bladePosition
                (element trailPos (i * 2), element trailPos (i * 2 + 1))
                (element trailAges i))).
  apply in_seq. lia.
Qed.

Lemma trailLoop_keeps_the_strongest_witness :
  length (contribution (0.5, 0) (element [0; 0; 9; 9] 0, element [0; 0; 9; 9] 1)
            (element [0.05; 1] 0))
  <= length (trailLoop 2 [0; 0; 9; 9] [0.05; 1] (0.5, 0)).
Proof.
  apply (trailLoop_keeps_the_strongest 2 [0; 0; 9; 9] [0.05; 1] (0.5, 0) 0). lia.
Defined.

(** X13.  Only the tip of a blade is displaced: at the two base vertices
    of every blade (vertex index not a multiple of 3) both displacements
    are the zero vector whatever the arrays hold, and at the tip vertex
    [tipness] is 1, so that the trail displacement is the kept push scaled
    by [playerStrength]. *)
Theorem only_tips_are_displaced (trail_size cube_count : nat)
    (trailPos trailAges cubePos : list R) (bladePosition : vec2) (vertexIndex : nat) :
  ((vertexIndex mod 3 ≠ 0)%nat →
   clampedPush trail_size trailPos trailAges bladePosition vertexIndex = (0, 0) ∧
   cubeDisplacement cube_count cubePos bladePosition vertexIndex = (0, 0)) ∧
  ((vertexIndex mod 3 = 0)%nat →
   tipness vertexIndex = 1 ∧
   clampedPush trail_size trailPos trailAges bladePosition vertexIndex
   = mul (trailLoop trail_size trailPos trailAges bladePosition) playerStrength).
Proof.
  split.
  - intros Hbase.
    assert (Ht : tipness vertexIndex = 0).
    { unfold tipness, step, vertexLoopIndex. destruct (Rlt_dec _ _) as [|Hn]; [done|].
      exfalso. apply Hn.
      assert (1 <= INR (vertexIndex mod 3)); [|lra].
      change 1 with (INR 1). apply le_INR. lia. }
    unfold clampedPush, cubeDisplacement. rewrite Ht. split; apply mul_zero.
  - intros Htip.
    assert (Ht : tipness vertexIndex = 1).
    { unfold tipness, step, vertexLoopIndex. rewrite Htip. simpl.
      destruct (Rlt_dec _ _); [lra|done]. }
    split; [done|]. unfold clampedPush. rewrite Ht.
    unfold mul. simpl. f_equal; ring.
Qed.

Lemma only_tips_are_displaced_witness :
  clampedPush 1 [0; 0] [0] (0.5, 0) 4 = (0, 0) ∧ tipness 3 = 1.
Proof.
  split.
  - apply (only_tips_are_displaced 1 0 [0; 0] [0] [] (0.5, 0) 4). simpl. lia.
  - apply (only_tips_are_displaced 1 0 [0; 0] [0] [] (0.5, 0) 3). reflexivity.
Defined.

Lemma trailLoop_zero (trail_size : nat) (trailPos trailAges : list R)
    (bladePosition : vec2) :
  (∀ i, (i < trail_size)%nat →
     contribution bladePosition (element trailPos (i * 2), element trailPos (i * 2 + 1))
                  (element trailAges i) = (0, 0)) →
  trailLoop trail_size trailPos trailAges bladePosition = (0, 0).
Proof.
  intros Hzero. unfold trailLoop.
  assert (Hin : ∀ i, In i (seq 0 trail_size) →
            contribution bladePosition
              (element trailPos (i * 2), element trailPos (i * 2 + 1))
              (element trailAges i) = (0, 0)).
  { intros i Hi. apply Hzero. apply in_seq in Hi. lia. }
  clear Hzero. induction (seq 0 trail_size) as [|i slots IH]; simpl; [done|].
  rewrite Hin by (by left). rewrite keepMax_zero. apply IH.
  intros j Hj. apply Hin. by right.
Qed.

(** X14.  When every age the loop reads is at least 4 (sentinel slots and
    expired footprints alike), the trail displacement is the zero vector at
    every vertex of every blade; this is the case for the arrays the
    constructor creates, so nothing is displaced before the first upload. *)
Theorem expired_slots_displace_nothing (isMobile : bool) (trail_size : nat)
    (trailPos trailAges : list R) (bladePosition : vec2) (vertexIndex : nat) :
  ((trail_size <= Datatypes.length trailAges)%nat →
   Forall (fun age => 4 <= age) trailAges →
   clampedPush trail_size trailPos trailAges bladePosition vertexIndex = (0, 0)) ∧
  (denotes (trailAgesNode (newGrass isMobile)) trailAges →
   clampedPush (TRAIL_SIZE (newGrass isMobile)) trailPos trailAges bladePosition
     vertexIndex = (0, 0)).
Proof.
  assert (Hgen : ∀ n ages, (n <= Datatypes.length ages)%nat →
            Forall (fun age => 4 <= age) ages →
            clampedPush n trailPos ages bladePosition vertexIndex = (0, 0)).
  { intros n ages Hlen Hall. unfold clampedPush. rewrite trailLoop_zero.
    - unfold mul. simpl. f_equal; ring.
    - intros i Hi. unfold contribution, weight.
      rewrite timeFalloff_expired.
      + rewrite Rmult_0_r. apply mul_zero.
      + unfold element.
        destruct (lookup_lt_is_Some_2 ages i ltac:(lia)) as [a Ha].
        rewrite (nth_lookup_Some _ _ _ _ Ha).
        rewrite Forall_forall in Hall. apply Hall.
        by eapply list_elem_of_lookup_2. }
  split; [apply Hgen|].
  intros Hden.
  change (trailAgesNode (newGrass isMobile))
    with (replicate (TRAIL_SIZE (newGrass isMobile)) SENTINEL_AGE) in Hden.
  apply (denotes_replicate _ _ _ _ realOf_SENTINEL_AGE) in Hden. subst trailAges.
  apply Hgen.
  - by rewrite length_replicate.
  - apply Forall_forall. intros a Ha.
    apply elem_of_replicate in Ha as [-> _]. lra.
Qed.

Lemma expired_slots_displace_nothing_witness :
  clampedPush 2 [0; 0; 1; 1] [4; 7.5] (0.5, 0) 0 = (0, 0).
Proof.
  apply (expired_slots_displace_nothing false 2 [0; 0; 1; 1] [4; 7.5] (0.5, 0) 0).
  - simpl. lia.
  - repeat constructor; lra.
Defined.

End EvaluatorMore.

(** ** The patch mask *)

Section PatchMask.

Import Shader Blade.
Local Open Scope R_scope.

Lemma patchNoise_range (bladePosition : vec2) :
  -0.5 <= patchNoise bladePosition <= 1.5.
Proof.
  unfold patchNoise.
  pose proof (SIN_bound (bladePosition.1 * 0.15)) as [? ?].
  pose proof (SIN_bound (bladePosition.2 * 0.15)) as [? ?].
  generalize dependent (sin (bladePosition.1 * 0.15)).
  generalize dependent (sin (bladePosition.2 * 0.15)).
  intros sz ? ? sx ? ?. split; lra.
Qed.

Lemma shapeY_cases (bladePosition : vec2) (heightRandomness : R) (vertexIndex : nat) :
  shapeY bladePosition heightRandomness vertexIndex
  = if decide (vertexIndex mod 3 = 0)%nat
    then height bladePosition heightRandomness else 0.
Proof.
  unfold shapeY, element, bladeShape.
  pose proof (Nat.mod_upper_bound vertexIndex 3 ltac:(lia)) as Hlt.
  destruct (vertexIndex mod 3) as [|[|[|k]]]; simpl; try lra. lia.
Qed.

(** X15.  The patch mask.  The patch noise lies between -0.5 and 1.5
    (half the sum of two sines, plus one half); a blade is hidden exactly
    when its patch noise is at most 0.4.  With a height randomness in
    [0,1], every vertex of a visible blade ends at a height between 0 and
    [1.5 * bladeHeight = 1.8], and every vertex of a hidden blade ends
    between -100.6 and -99.5. *)
Theorem patch_mask_heights (bladePosition : vec2) (heightRandomness : R)
    (vertexIndex : nat) :
  0 <= heightRandomness <= 1 →
  -0.5 <= patchNoise bladePosition <= 1.5 ∧
  (hidden bladePosition = 1 ↔ patchNoise bladePosition <= hiddenThreshold) ∧
  (hidden bladePosition = 0 ↔ hiddenThreshold < patchNoise bladePosition) ∧
  (hiddenThreshold < patchNoise bladePosition →
   0 <= vertexY bladePosition heightRandomness vertexIndex <= 1.5 * bladeHeight) ∧
  (patchNoise bladePosition <= hiddenThreshold →
   -100.6 <= vertexY bladePosition heightRandomness vertexIndex <= -99.5).
Proof.
  intros Hr. pose proof (patchNoise_range bladePosition) as Hn.
  split; [done|].
  assert (Hy : shapeY bladePosition heightRandomness vertexIndex = 0 ∨
               shapeY bladePosition heightRandomness vertexIndex
               = height bladePosition heightRandomness).
  { rewrite shapeY_cases. destruct (decide _); auto. }
  unfold vertexY, hidden, step, hiddenThreshold, bladeHeight in *.
  unfold height, bladeHeight, bladeHeightRandomness in Hy.
  set (pn := patchNoise bladePosition) in *.
  set (y := shapeY bladePosition heightRandomness vertexIndex) in *.
  destruct (Rlt_dec 0.4 pn) as [Hvis|Hhid].
  - split; [split; intros; lra|]. split; [split; intros; lra|]. split; [|intros; lra].
    intros _. destruct Hy as [-> | ->]; split; nra.
  - split; [split; intros; lra|]. split; [split; intros; lra|]. split; [intros; lra|].
    intros _. destruct Hy as [-> | ->]; split; nra.
Qed.

Lemma patch_mask_heights_witness :
  -0.5 <= patchNoise (0, 0) <= 1.5 ∧
  0 <= vertexY (0, 0) 0.5 0 <= 1.5 * bladeHeight.
Proof.
  destruct (patch_mask_heights (0, 0) 0.5 0 ltac:(lra)) as (Hn & _ & _ & Hvis & _).
  split; [exact Hn|]. apply Hvis.
  unfold patchNoise, hiddenThreshold. simpl. rewrite Rmult_0_l, sin_0. lra.
Defined.

End PatchMask.

(** * [SpawnerZone] *)

Section SpawnerZoneFacts.

Import SpawnerZone.

Lemma handle_zone_geometry (zone : Zone) (ev : Event) :
  radius (handle zone ev) = radius zone ∧ center (handle zone ev) = center zone.
Proof.
  destruct ev as [code|code|p]; simpl.
  - unfold keydown. by destruct (bool_decide _).
  - unfold keyup. by destruct (bool_decide _).
  - unfold update. destruct (inside zone p); [|done].
    destruct (pressedEnter zone && negb (_enterConsumed zone)); [done|].
    by destruct (negb (pressedEnter zone)).
Qed.

Lemma handle_inside (zone : Zone) (ev : Event) (p : Vector3) :
  inside (handle zone ev) p = inside zone p.
Proof.
  destruct (handle_zone_geometry zone ev) as [Hr Hc]. unfold inside. by rewrite Hr, Hc.
Qed.

Lemma handle_spawned (zone : Zone) (ev : Event) :
  spawned (handle zone ev) = spawned zone.
Proof.
  destruct (handle_zone_geometry zone ev) as [_ Hc]. unfold spawned. by rewrite Hc.
Qed.

Lemma update_inside (zone : Zone) (p q : Vector3) :
  inside (update zone p) q = inside zone q.
Proof. apply (handle_inside zone (Frame p)). Qed.

Lemma update_spawned (zone : Zone) (p : Vector3) :
  spawned (update zone p) = spawned zone.
Proof. apply (handle_spawned zone (Frame p)). Qed.

Lemma update_pressedEnter (zone : Zone) (p : Vector3) :
  pressedEnter (update zone p) = pressedEnter zone.
Proof.
  unfold update. destruct (inside zone p); [|done].
  destruct (pressedEnter zone && negb (_enterConsumed zone)); [done|].
  by destruct (negb (pressedEnter zone)).
Qed.

Lemma held_key_idle (ps : list Vector3) : ∀ zone,
  pressedEnter zone = true → _enterConsumed zone = true →
  Forall (fun p => inside zone p = true) ps →
  cubes (run zone (map Frame ps)) = cubes zone ∧
  _enterConsumed (run zone (map Frame ps)) = true.
Proof.
  unfold run. induction ps as [|p ps IH]; intros zone Hkey Hcons Hin; simpl; [done|].
  inversion Hin as [|p' ps' Hp Hps]; subst.
  assert (Hstep : cubes (update zone p) = cubes zone ∧
                  _enterConsumed (update zone p) = true).
  { unfold update. by rewrite Hp, Hkey, Hcons. }
  destruct Hstep as [Hc He].
  destruct (IH (update zone p)) as [IHc IHe].
  - by rewrite update_pressedEnter.
  - done.
  - eapply Forall_impl; [exact Hps|]. intros q Hq. simpl.
    by rewrite update_inside.
  - split; [by rewrite IHc|done].
Qed.

(** X16.  One spawn per stay.  While Enter is held and the player stays
    inside the zone, the first frame spawns the three cubes and no later
    frame spawns again, however many frames follow. *)
Theorem held_key_spawns_once (zone : Zone) (p : Vector3) (ps : list Vector3) :
  pressedEnter zone = true → _enterConsumed zone = false →
  Forall (fun q => inside zone q = true) (p :: ps) →
  cubes (run zone (map Frame (p :: ps))) = cubes zone ++ spawned zone ∧
  _enterConsumed (run zone (map Frame (p :: ps))) = true.
Proof.
  intros Hkey Hcons Hin. inversion Hin as [|p' ps' Hp Hps]; subst.
  assert (Hfirst : cubes (update zone p) = cubes zone ++ spawned zone ∧
                   _enterConsumed (update zone p) = true).
  { unfold update. by rewrite Hp, Hkey, Hcons. }
  destruct Hfirst as [Hc He]. unfold run. simpl. fold (run (update zone p) (map Frame ps)).
  destruct (held_key_idle ps (update zone p)) as [IHc IHe].
  - by rewrite update_pressedEnter.
  - done.
  - eapply Forall_impl; [exact Hps|]. intros q Hq. simpl.
    by rewrite update_inside.
  - split; [by rewrite IHc|done].
Qed.

Lemma held_key_spawns_once_witness :
  let zone := keydown new "Enter" in
  length (cubes (run zone (map Frame [mkVector3 (-4) 0 0; mkVector3 (-3) 0 1;
                                      mkVector3 (-4) 0 0]))) = 3.
Proof.
  intros zone.
  destruct (held_key_spawns_once zone (mkVector3 (-4) 0 0)
              [mkVector3 (-3) 0 1; mkVector3 (-4) 0 0]) as [Hc _].
  - reflexivity.
  - reflexivity.
  - repeat constructor; vm_compute; reflexivity.
  - rewrite Hc. reflexivity.
Defined.

(** X17.  Leaving the zone re-arms it: after a frame outside, a frame
    inside with Enter still held spawns three more cubes, without any new
    key press. *)
Theorem reentry_spawns_again (zone : Zone) (pOut pIn : Vector3) :
  pressedEnter zone = true →
  inside zone pOut = false → inside zone pIn = true →
  cubes (update (update zone pOut) pIn) = cubes zone ++ spawned zone.
Proof.
  intros Hkey Hout Hin.
  pose proof (update_spawned zone pOut) as Hsp.
  unfold update at 1. rewrite update_inside, Hin, update_pressedEnter, Hkey.
  assert (Hc : _enterConsumed (update zone pOut) = false ∧
               cubes (update zone pOut) = cubes zone).
  { unfold update. by rewrite Hout. }
  destruct Hc as [-> ->]. simpl. by rewrite Hsp.
Qed.

Lemma reentry_spawns_again_witness :
  let zone := update (keydown new "Enter") (mkVector3 (-4) 0 0) in
  length (cubes zone) = 3 ∧
  length (cubes (update (update zone (mkVector3 5 0 5)) (mkVector3 (-4) 0 0))) = 6.
Proof.
  intros zone. split; [reflexivity|].
  rewrite (reentry_spawns_again zone (mkVector3 5 0 5) (mkVector3 (-4) 0 0)).
  - reflexivity.
  - reflexivity.
  - vm_compute; reflexivity.
  - vm_compute; reflexivity.
Defined.

(** X18.  Cubes are only ever added, three at a time: after any key
    events and frames the list of cubes is the old list followed by some
    number of copies of the three spawned cubes, at most one copy per
    frame spent inside the zone; in particular nothing is spawned while
    every frame finds the player outside. *)
Theorem cubes_grow_by_threes (events : list Event) (zone : Zone) :
  ∃ k, cubes (run zone events) = cubes zone ++ mjoin (replicate k (spawned zone)) ∧
       k ≤ length (List.filter (fun ev => match ev with
                                          | Frame p => inside zone p
                                          | _ => false
                                          end) events).
Proof.
  unfold run. revert zone. induction events as [|ev events IH]; intros zone; simpl.
  - exists 0. simpl. by rewrite app_nil_r.
  - destruct (IH (handle zone ev)) as (k & Hc & Hk).
    rewrite handle_spawned in Hc.
    assert (Hfilter : List.filter (fun ev0 => match ev0 with
                                              | Frame p => inside (handle zone ev) p
                                              | _ => false
                                              end) events
                      = List.filter (fun ev0 => match ev0 with
                                                | Frame p => inside zone p
                                                | _ => false
                                                end) events).
    { apply filter_ext. intros [c|c|q]; try done. apply handle_inside. }
    rewrite Hfilter in Hk. clear Hfilter.
    destruct ev as [code|code|p]; simpl in *.
    + exists k. split; [|done]. rewrite Hc. unfold keydown. by destruct (bool_decide _).
    + exists k. split; [|done]. rewrite Hc. unfold keyup. by destruct (bool_decide _).
    + destruct (inside zone p) eqn:Hin.
      * assert (Hup : cubes (update zone p) = cubes zone ∨
                      cubes (update zone p) = cubes zone ++ spawned zone).
        { unfold update. rewrite Hin.
          destruct (pressedEnter zone && negb (_enterConsumed zone)); [by right|].
          destruct (negb (pressedEnter zone)); by left. }
        destruct Hup as [Hup|Hup]; rewrite Hc, Hup.
        -- exists k. split; [done|simpl; lia].
        -- exists (S k). split; [simpl; by rewrite <- app_assoc|simpl; lia].
      * exists k. split; [|done]. rewrite Hc. unfold update. by rewrite Hin.
Qed.

End SpawnerZoneFacts.

(** * [CubeWall] *)

Section CubeWallFacts.

Import CubeWall.

Lemma flat_map_rows {A} (row : nat → list A) (cols : nat) :
  (∀ r, length (row r) = cols) →
  ∀ rows a,
    length (flat_map row (seq a rows)) = rows * cols ∧
    ∀ r c, r < rows → c < cols →
      flat_map row (seq a rows) !! (r * cols + c) = row (a + r) !! c.
Proof.
  intros Hrow. induction rows as [|rows IH]; intros a; simpl.
  - split; [done|]. intros r c Hr. lia.
  - destruct (IH (S a)) as [Hlen Hat]. split.
    + rewrite length_app, Hrow, Hlen. lia.
    + intros [|r] c Hr Hc.
      * rewrite Nat.add_0_r. simpl. apply lookup_app_l. by rewrite Hrow.
      * rewrite lookup_app_r by (rewrite Hrow; simpl; lia).
        rewrite Hrow. replace (S r * cols + c - cols) with (r * cols + c) by (simpl; lia).
        rewrite Hat by lia. f_equal. f_equal. lia.
Qed.

(** X19.  The wall is a full grid: the constructor creates exactly
    [rows * cols] cubes, the cube of row [r] and column [c] is at index
    [r * cols + c], all cubes share the [x] of the start position, and the
    two materials alternate like a chessboard. *)
Theorem wall_is_a_grid (startX startY startZ : float) (cols rows : nat)
    (cubeSize : float) :
  length (new startX startY startZ cols rows cubeSize) = rows * cols ∧
  ∀ r c, r < rows → c < cols →
    ∃ cube, new startX startY startZ cols rows cubeSize !! (r * cols + c) = Some cube ∧
            cube = cubeAt startX startY startZ cols cubeSize r c ∧
            p_X cube = startX ∧
            (material cube = 0 ↔ Nat.Even (r + c)).
Proof.
  unfold new.
  assert (Hrow : ∀ r, length (map (cubeAt startX startY startZ cols cubeSize r) (seq 0 cols))
                      = cols).
  { intros r. by rewrite length_map, length_seq. }
  destruct (flat_map_rows
    (fun r => map (cubeAt startX startY startZ cols cubeSize r) (seq 0 cols)) cols
    Hrow rows 0) as [Hlen Hat].
  split; [done|]. intros r c Hr Hc.
  exists (cubeAt startX startY startZ cols cubeSize r c).
  split; [|split; [done|split; [done|]]].
  - rewrite Hat by done. simpl. rewrite list_lookup_fmap, lookup_seq_lt by done.
    reflexivity.
  - unfold cubeAt. cbn [material]. destruct (decide ((r + c) mod 2 = 0)) as [E|E].
    + split; [|done]. intros _.
      apply Nat.Div0.mod_divides in E as [k Hk]. by exists k.
    + split; [done|]. intros [k Hk]. exfalso. apply E.
      rewrite Hk. rewrite Nat.mul_comm. apply Nat.Div0.mod_mul.
Qed.

Lemma wall_is_a_grid_witness :
  length (new (-6) 0 8 4 4 1) = 16 ∧
  ∃ cube, new (-6) 0 8 4 4 1 !! (2 * 4 + 3) = Some cube ∧ material cube = 1.
Proof.
  destruct (wall_is_a_grid (-6) 0 8 4 4 1) as [Hlen Hat].
  split; [exact Hlen|].
  destruct (Hat 2 3 ltac:(lia) ltac:(lia)) as (cube & Hcube & -> & _).
  exists (cubeAt (-6) 0 8 4 1 2 3). split; [exact Hcube|reflexivity].
Defined.

End CubeWallFacts.

(** * Malformed numbers *)

Lemma is_nan_Prim2SF (x : float) : PrimFloat.is_nan x = true → Prim2SF x = S754_nan.
Proof.
  unfold is_nan. rewrite FloatAxioms.eqb_spec. unfold SFeqb, SFcompare.
  destruct (Prim2SF x) as [s|s| |s m e]; try done.
  - by destruct s.
  - destruct s; rewrite Z.compare_refl; fold (Pos.compare m m);
      by rewrite Pos.compare_refl.
Qed.

(** X20.  A player position with a NaN coordinate counts as outside the
    zone: the frame spawns nothing, marks the player as outside and re-arms
    the zone, whatever the keys. *)
Theorem nan_position_is_outside (zone : SpawnerZone.Zone) (p : SpawnerZone.Vector3) :
  PrimFloat.is_nan (SpawnerZone.v_x p) = true ∨ PrimFloat.is_nan (SpawnerZone.v_z p) = true →
  SpawnerZone.inside zone p = false ∧
  SpawnerZone.cubes (SpawnerZone.update zone p) = SpawnerZone.cubes zone ∧
  SpawnerZone.isPlayerInside (SpawnerZone.update zone p) = false ∧
  SpawnerZone._enterConsumed (SpawnerZone.update zone p) = false.
Proof.
  intros Hnan.
  assert (Hout : SpawnerZone.inside zone p = false).
  { unfold SpawnerZone.inside.
    rewrite leb_spec, sqrt_spec, add_spec, !mul_spec, !sub_spec.
    destruct Hnan as [H|H]; apply is_nan_Prim2SF in H; rewrite H.
    - reflexivity.
    - unfold SF64add, SF64mul, SF64sub, SF64sqrt.
      assert (Hz : ∀ y, SFsub prec emax S754_nan y = S754_nan) by (by intros []).
      rewrite Hz.
      assert (Ha : ∀ y, SFadd prec emax y (SFmul prec emax S754_nan S754_nan) = S754_nan)
        by (by intros []).
      by rewrite Ha. }
  split; [done|]. unfold SpawnerZone.update. by rewrite Hout.
Qed.

Lemma nan_position_is_outside_witness :
  SpawnerZone.cubes
    (SpawnerZone.update (SpawnerZone.keydown SpawnerZone.new "Enter")
       (SpawnerZone.mkVector3 nan 0 0)) = [].
Proof.
  apply (nan_position_is_outside (SpawnerZone.keydown SpawnerZone.new "Enter")
           (SpawnerZone.mkVector3 nan 0 0)).
  left. reflexivity.
Defined.

(** * The player trail across failing calls *)

Lemma runAll_playerTrail_length frames : ∀ g,
  0 < PLAYER_SLOTS g → length (_playerTrail g) ≤ PLAYER_SLOTS g →
  length (_playerTrail (runAll g frames)) ≤ PLAYER_SLOTS g.
Proof.
  unfold runAll. induction frames as [|fr frames IH]; intros g Hpos Hlen; simpl; [done|].
  destruct (update_constants g (f_time fr) (f_playerPos fr) (f_onGround fr)
              (f_cubePositions fr)) as (_ & _ & HP & _).
  unfold step. rewrite <- HP. apply IH; rewrite HP; [done|].
  destruct (f_playerPos fr) as [p|]; [|done].
  destruct (update_player_part g (f_time fr) p (f_onGround fr) (f_cubePositions fr))
    as [-> _].
  by apply (recordPlayer_trail_length (set_timeNode _ g)).
Qed.

(** X21.  The bound on the player trail survives failing calls: after any
    calls on a new [Grass], including calls that raise, the player trail
    holds at most [PLAYER_SLOTS] entries. *)
Theorem player_trail_bounded_through_failures (isMobile : bool) (frames : list Frame) :
  length (_playerTrail (runAll (newGrass isMobile) frames))
  ≤ PLAYER_SLOTS (runAll (newGrass isMobile) frames) ∧
  PLAYER_SLOTS (runAll (newGrass isMobile) frames) = (if isMobile then 20 else 40).
Proof.
  destruct (runAll_constants frames (newGrass isMobile)) as (_ & _ & HP & _).
  rewrite HP. split; [|done].
  apply runAll_playerTrail_length; destruct isMobile; simpl; lia.
Qed.

(** * [Grass.setGeometry] *)

Lemma fold_seq_invariant {St} (I : nat → St → Prop) (f : St → nat → St) (n : nat) :
  ∀ a s, I a s →
    (∀ k s', a ≤ k → k < a + n → I k s' → I (k + 1) (f s' k)) →
    I (a + n) (fold_left f (seq a n) s).
Proof.
  induction n as [|n IH]; intros a s Hs Hstep; simpl.
  - by rewrite Nat.add_0_r.
  - replace (a + S n) with (S a + n) by lia. apply IH.
    + replace (S a) with (a + 1) by lia. apply Hstep; [lia|lia|done].
    + intros k s' Hk Hlt. apply Hstep; lia.
Qed.

Section GeometryFacts.

Import Geometry.

Variable random : nat → float.
Variable fround : float → float.

Lemma typed_set_eq arr i v :
  i < length arr → typed_set fround arr i v !! i = Some (fround v).
Proof. intros Hi. by apply list_lookup_insert_eq. Qed.

Lemma typed_set_ne arr i j v : i ≠ j → typed_set fround arr i v !! j = arr !! j.
Proof. intros Hne. by apply list_lookup_insert_ne. Qed.

Lemma typed_set_length arr i v : length (typed_set fround arr i v) = length arr.
Proof. apply length_insert. Qed.

Lemma blade_filled (subdiv : nat) (fragmentSize : float) (iX iZ : nat) (b : Buffers) :
  iX < subdiv → iZ < subdiv →
  filled random fround subdiv fragmentSize (iX * subdiv + iZ) b →
  filled random fround subdiv fragmentSize (iX * subdiv + iZ + 1)
         (blade random fround subdiv fragmentSize iX b iZ).
Proof.
  intros HX HZ (Hp & Hh & Hc & Hdone).
  assert (Hi : iX * subdiv + iZ < subdiv * subdiv) by nia.
  set (i := iX * subdiv + iZ) in *.
  unfold filled, blade. fold i. cbn [position heightRandomness calls].
  rewrite !typed_set_length. split; [done|]. split; [done|]. split; [lia|].
  intros jX jZ HjZ Hj. unfold anchored. cbn [position heightRandomness].
  destruct (decide (jX * subdiv + jZ = i)) as [E|E].
  - assert (jX = iX ∧ jZ = iZ) as [-> ->].
    { apply (Nat.div_mod_unique subdiv); [done|done|]. unfold i in E. lia. }
    fold i. rewrite Hc.
    repeat split.
    all: repeat (rewrite typed_set_ne by lia).
    all: rewrite typed_set_eq by (rewrite ?typed_set_length; lia).
    all: repeat f_equal; lia.
  - destruct (Hdone jX jZ HjZ ltac:(lia)) as (H0 & H1 & H2 & H3 & H4 & H5 & G0 & G1 & G2).
    repeat split.
    all: repeat (rewrite typed_set_ne by lia); assumption.
Qed.

(** X22.  The geometry is complete and every blade is one anchor: both
    arrays keep their size, [Math.random] is called five times per blade,
    and for each row [iX] and column [iZ] below [subdivisions] the blade
    [iX * subdivisions + iZ] holds the same rounded [(x, z)] pair for its
    three vertices, computed from its own two random numbers, followed by
    its three height factors. *)
Theorem setGeometry_layout (subdiv : nat) :
  let b := setGeometry random fround subdiv in
  let fragmentSize := PrimFloat.div size (num subdiv) in
  length (position b) = subdiv * subdiv * 6 ∧
  length (heightRandomness b) = subdiv * subdiv * 3 ∧
  calls b = subdiv * subdiv * 5 ∧
  ∀ iX iZ, iX < subdiv → iZ < subdiv → anchored random fround subdiv fragmentSize b iX iZ.
Proof.
  intros b fragmentSize.
  assert (Hfilled : filled random fround subdiv fragmentSize (subdiv * subdiv) b).
  { unfold b, setGeometry. fold fragmentSize.
    pose proof (fold_seq_invariant
      (fun iX s => filled random fround subdiv fragmentSize (iX * subdiv) s)
      (fun s iX => fold_left (blade random fround subdiv fragmentSize iX) (seq 0 subdiv) s)
      subdiv 0) as Houter.
    simpl in Houter. apply Houter.
    - unfold filled. cbn [position heightRandomness calls].
      rewrite !length_replicate. repeat split; lia.
    - intros iX s _ HX Hs.
      pose proof (fold_seq_invariant
        (fun iZ s' => filled random fround subdiv fragmentSize (iX * subdiv + iZ) s')
        (blade random fround subdiv fragmentSize iX) subdiv 0 s) as Hinner.
      simpl in Hinner.
      replace ((iX + 1) * subdiv) with (iX * subdiv + subdiv) by lia.
      apply Hinner.
      + by rewrite Nat.add_0_r.
      + intros iZ s' _ HZ Hs'.
        replace (iX * subdiv + (iZ + 1)) with (iX * subdiv + iZ + 1) by lia.
        by apply blade_filled. }
  destruct Hfilled as (Hp & Hh & Hc & Hall).
  split; [lia|]. split; [done|]. split; [done|].
  intros iX iZ HX HZ. apply Hall; [done|nia].
Qed.

End GeometryFacts.

Lemma setGeometry_layout_witness :
  Geometry.anchored (fun _ => 0.5%float) (fun v => v) 2
    (PrimFloat.div Geometry.size (Geometry.num 2))
    (Geometry.setGeometry (fun _ => 0.5%float) (fun v => v) 2) 1 0.
Proof.
  apply (setGeometry_layout (fun _ => 0.5%float) (fun v => v) 2); lia.
Defined.

(** * Cube lists that fit (C7) *)

Lemma run_fitting_lists frames : ∀ g lastPos,
  _cubeLastPos g = Some lastPos →
  Forall (fun fr => ∀ cubes, f_cubePositions fr = Some cubes →
                     length cubes ≤ length lastPos) frames →
  is_Some (run g frames).
Proof.
  induction frames as [|fr frames IH]; intros g lastPos Hl Hall; simpl; [by eexists|].
  inversion Hall as [|fr' frames' Hfr Hrest]; subst.
  unfold step.
  destruct (update g (f_time fr) (f_playerPos fr) (f_onGround fr) (f_cubePositions fr))
    as [g1 c] eqn:Hup.
  assert (Hc : c = JS.Normal).
  { replace c with (update g (f_time fr) (f_playerPos fr) (f_onGround fr)
                      (f_cubePositions fr)).2 by (by rewrite Hup).
    destruct (f_playerPos fr) as [p|]; [|done].
    destruct (f_cubePositions fr) as [cs|] eqn:Ecs; [|done].
    rewrite update_completion, Hl.
    destruct (decide _) as [Hlt|]; [|done].
    specialize (Hfr cs eq_refl). lia. }
  subst c.
  destruct (update_lastPos_length g (f_time fr) (f_playerPos fr) (f_onGround fr)
              (f_cubePositions fr) lastPos Hl) as (l' & Hl' & Hlen).
  rewrite Hup in Hl'. simpl in Hl'.
  apply (IH g1 l' Hl'). rewrite Hlen. exact Hrest.
Qed.

(** C7, as amended.  [update] returns as long as no cube list is longer
    than the list of remembered positions: the call that finds no remembered
    positions returns whatever it is given, and once positions are
    remembered every sequence of calls whose cube lists have the remembered
    length or are shorter returns.  A call that is given a player position
    and a longer cube list raises a [TypeError]. *)
Theorem C7_returns_while_list_fits (g : Grass) :
  (_cubeLastPos g = None →
   ∀ time playerPos onGround cubePositions,
     snd (update g time playerPos onGround cubePositions) = JS.Normal) ∧
  (∀ lastPos frames,
     _cubeLastPos g = Some lastPos →
     Forall (fun fr => ∀ cubes, f_cubePositions fr = Some cubes →
                        length cubes ≤ length lastPos) frames →
     is_Some (run g frames)) ∧
  (∀ lastPos time p onGround cubes,
     _cubeLastPos g = Some lastPos → length lastPos < length cubes →
     snd (update g time (Some p) onGround (Some cubes)) = JS.TypeError).
Proof.
  split; [|split].
  - intros Hnone time playerPos onGround cubePositions.
    destruct playerPos as [p|]; [|done].
    destruct cubePositions as [cubes|].
    + by rewrite update_completion, Hnone.
    + unfold update. simpl. done.
  - intros lastPos frames Hl Hall. by apply (run_fitting_lists frames g lastPos).
  - intros lastPos time p onGround cubes Hl Hlt.
    rewrite update_completion, Hl. by destruct (decide _).
Qed.

Lemma C7_returns_while_list_fits_witness :
  let g1 := fst (update (newGrass false) 0 (Some origin) true
                   (Some [origin; mkPos 1 1])) in
  _cubeLastPos g1 = Some [origin; mkPos 1 1] ∧
  is_Some (run g1 [mkFrame 1 (Some origin) true (Some [mkPos 3 0; mkPos 1 1]);
                   mkFrame 2 (Some origin) true (Some [mkPos 4 0]);
                   mkFrame 3 None false (Some [])]) ∧
  snd (update g1 1 (Some origin) true (Some [origin; origin; origin])) = JS.TypeError.
Proof.
  set (g1 := fst (update (newGrass false) 0 (Some origin) true (Some [origin; mkPos 1 1]))).
  assert (Hl : _cubeLastPos g1 = Some [origin; mkPos 1 1]) by (vm_compute; reflexivity).
  destruct (C7_returns_while_list_fits g1) as (_ & Hfit & Hraise).
  split; [exact Hl|]. split.
  - apply (Hfit [origin; mkPos 1 1]); [exact Hl|].
    repeat (apply Forall_cons_2; [intros cubes [= <-]; simpl; lia|]).
    apply Forall_nil_2.
  - apply (Hraise [origin; mkPos 1 1]); [exact Hl|simpl; lia].
Defined.
